(** * Location service: geofence membership and transition detection

    A shallow embedding of the [POST /location] handler of the location
    service (src/user-service/server.js, the module listening on port 3003)
    and of the [GET /geofences] handler of the geofence service it queries
    (port 3002).

    JavaScript numbers are IEEE-754 doubles and are modelled by Rocq's
    primitive floats, so that [<=] on numbers is [PrimFloat.leb].  The
    in-memory object [userStates] is a finite map keyed by user id.  The
    turf geometry library is not part of the repository: the handler is
    parametrised by an interface ([Turf]) that assumes nothing about it. *)

From Stdlib Require Import Floats.
From stdpp Require Import base option list gmap strings.

(** ** JavaScript values *)

Module Js.

(** The values [req.body.location] can take once [express.json()] has
    parsed the body: a JSON value, or [undefined] when the field is
    absent. *)
#[warnings="-register-all"]
Inductive Val :=
| Undefined
| Null
| Bool (b : bool)
| Num (x : float)
| Str (s : string)
| Arr (items : list Val)
| Obj (fields : list (string * Val)).

(** [a <= b], [a < b] and [a == b] on two numbers; each is false as soon
    as one side is [NaN]. *)
Definition le (a b : float) : bool := (a <=? b)%float.
Definition lt (a b : float) : bool := (a <? b)%float.
Definition eq (a b : float) : bool := (a =? b)%float.

(** Truthiness, as [!v] reads it: [undefined], [null], [false], [0],
    [-0], [NaN] and the empty string are falsy; arrays and objects are
    truthy, the empty array included. *)
Definition truthy (v : Val) : bool :=
  match v with
  | Undefined | Null => false
  | Bool b => b
  | Num x => negb (is_zero x || is_nan x)
  | Str s => negb (String.eqb s "")
  | Arr _ | Obj _ => true
  end.

(** [Array.isArray(v)]. *)
Definition isArray (v : Val) : bool :=
  match v with Arr _ => true | _ => false end.

(** [v.length] and [v[i]] for an array [v]; the handler reads them only
    after [Array.isArray(v)] has answered true.  Indexing past the end
    gives [undefined]. *)
Definition length (v : Val) : nat :=
  match v with Arr items => List.length items | _ => 0 end.

Definition index (v : Val) (i : nat) : Val :=
  match v with Arr items => nth i items Undefined | _ => Undefined end.

End Js.

(** ** The turf interface

    [turf.point([x, y])] builds a point feature from a coordinate pair or
    throws ([None]); [turf.distance(p, q, { units: 'meters' })] returns a
    number. *)

Class Turf := {
  Point : Type;
  turf_point : Js.Val → Js.Val → option Point;
  turf_distance : Point → Point → float;
}.

(** ** Data model *)

(** Ids are issued as [users.length + 1] by the user service and as
    [fenceIdCounter++] (from 1) by the geofence service. *)
Abbreviation UserId := positive.
Abbreviation FenceId := positive.

(** The strings ["inside"], ["outside"] and ["unknown"]. *)
Inductive Status := inside | outside | unknown.

(** The strings ["enter"], ["exit"] and ["none"]. *)
Inductive Trigger := enter | exit | none.

#[global] Instance Status_eq_dec : EqDecision Status.
Proof. solve_decision. Defined.

#[global] Instance Trigger_eq_dec : EqDecision Trigger.
Proof. solve_decision. Defined.

(** A geofence as the geofence service stores and returns it; [center] is
    [[latitude, longitude]] and [radius] is in meters. *)
Record Fence := {
  id : FenceId;
  userId : UserId;
  name : string;
  center : float * float;
  radius : float;
}.

(** The JSON body of a 200 answer; [fenceId = None] is [null]. *)
Record TransitionResult := {
  trigger : Trigger;
  status : Status;
  fenceId : option FenceId;
}.

(** What the handler sends back: the 200 body, the 400 answer
    ('Invalid location format. Expected [latitude, longitude].') or the 500
    answer ('Error processing location'). *)
Inductive Response :=
| Ok200 (body : TransitionResult)
| BadRequest400
| ServerError500.

(** The outcome of [await axios.get(GEOFENCE_SERVICE_URL/geofences)]: the
    promise rejects (service down, non-2xx answer), or resolves with
    [fenceResponse.data], the array of fences. *)
Inductive AxiosResult :=
| AxiosError
| AxiosOk (data : list Fence).

(** ** Geofence service: [GET /geofences] *)

Definition get_geofences (geofences : list Fence) (uid : UserId) : list Fence :=
  filter (λ fence, userId fence = uid) geofences.


(** ** Location service: [POST /location] *)

(** The guard of the 400 answer:
    [!location || !Array.isArray(location) || location.length !== 2]. *)
Definition invalid_location (location : Js.Val) : bool :=
  negb (Js.truthy location)
  || negb (Js.isArray location)
  || negb (Js.length location =? 2)%nat.

Section Handler.
Context `{Turf}.

(** The test of one loop iteration, [distance <= fence.radius], with the
    fence centre converted as [turf.point([fence.center[1],
    fence.center[0]])]; [None] when that conversion throws. *)
Definition isWithin (userPoint : Point) (fence : Fence) : option bool :=
  fenceCenter ← turf_point (Js.Num (center fence).2) (Js.Num (center fence).1);
  let distance := turf_distance userPoint fenceCenter in
  Some (Js.le distance (radius fence)).

(** The [for (const fence of geofences)] loop with its [break]: the pair
    [(isInsideAnyFence, fenceId)] it leaves, or [None] when an iteration
    throws. *)
Fixpoint scan (userPoint : Point) (geofences : list Fence)
  : option (bool * option FenceId) :=
  match geofences with
  | [] => Some (false, None)
  | fence :: rest =>
      hit ← isWithin userPoint fence;
      if hit : bool then Some (true, Some (id fence))
      else scan userPoint rest
  end.

(** The trigger chosen by the [if / else if] of step 4. *)
Definition classify (previousStatus currentStatus : Status) : Trigger :=
  if bool_decide (currentStatus = inside)
     && negb (bool_decide (previousStatus = inside))
  then enter
  else if bool_decide (currentStatus = outside)
          && bool_decide (previousStatus = inside)
  then exit
  else none.

(** Steps 4 to 6: state change detection, the write to [userStates] and
    the 200 body. *)
Definition detect (userStates : gmap UserId Status) (uid : UserId)
    (isInsideAnyFence : bool) (fid : option FenceId)
  : gmap UserId Status * TransitionResult :=
  let currentStatus := if isInsideAnyFence then inside else outside in
  let previousStatus := default unknown (userStates !! uid) in
  let trigger := classify previousStatus currentStatus in
  (<[uid := currentStatus]> userStates,
   {| trigger := trigger;
      status := currentStatus;
      fenceId := if bool_decide (trigger = enter) then fid else None |}).

(** The body of the [try] once the awaited lookup has settled: any throw
    lands in the [catch], which answers 500 and leaves [userStates]
    alone. *)
Definition resume (userStates : gmap UserId Status) (uid : UserId)
    (location : Js.Val) (fenceResponse : AxiosResult)
  : gmap UserId Status * Response :=
  match fenceResponse with
  | AxiosError => (userStates, ServerError500)
  | AxiosOk geofences =>
      match
        userPoint ← turf_point (Js.index location 1) (Js.index location 0);
        scan userPoint geofences
      with
      | None => (userStates, ServerError500)
      | Some (isInsideAnyFence, fid) =>
          let (userStates', body) :=
            detect userStates uid isInsideAnyFence fid in
          (userStates', Ok200 body)
      end
  end.

(** The whole handler for an authenticated user: the new [userStates] and
    the answer.  [fenceResponse] is how the lookup settles if it is
    made. *)
Definition post_location (userStates : gmap UserId Status) (uid : UserId)
    (location : Js.Val) (fenceResponse : AxiosResult)
  : gmap UserId Status * Response :=
  if invalid_location location then (userStates, BadRequest400)
  else resume userStates uid location fenceResponse.

End Handler.

(** ** The event loop

    Node runs one handler at a time and switches only at an [await].  The
    handler has a single one, on the fence lookup, so a call is two
    uninterrupted runs: from the arrival of the request to the [await] (or
    to the 400 answer), and from the settling of the lookup to the 200 or
    500 answer.  Calls interleave at that granularity. *)

Record Server := {
  userStates : gmap UserId Status;
  (** handlers suspended at the [await], by request number *)
  awaiting : gmap nat (UserId * Js.Val);
  (** number of the next request *)
  next : nat;
  (** answers sent so far, oldest first *)
  answers : list (nat * UserId * Response);
}.

Inductive Event :=
| Arrive (uid : UserId) (location : Js.Val)
| Settle (n : nat) (fenceResponse : AxiosResult).

(** One completed call: request number, user, location and how its lookup
    settled (never looked at for a call answered 400). *)
Definition Call : Type := nat * UserId * Js.Val * AxiosResult.

Section EventLoop.
Context `{Turf}.

Definition step (w : Server) (ev : Event) : Server :=
  match ev with
  | Arrive uid location =>
      if invalid_location location then
        {| userStates := userStates w;
           awaiting := awaiting w;
           next := S (next w);
           answers := answers w ++ [(next w, uid, BadRequest400)] |}
      else
        {| userStates := userStates w;
           awaiting := <[next w := (uid, location)]> (awaiting w);
           next := S (next w);
           answers := answers w |}
  | Settle n fenceResponse =>
      match awaiting w !! n with
      | None => w
      | Some (uid, location) =>
          let (userStates', answer) :=
            resume (userStates w) uid location fenceResponse in
          {| userStates := userStates';
             awaiting := delete n (awaiting w);
             next := next w;
             answers := answers w ++ [(n, uid, answer)] |}
      end
  end.

Definition run (w : Server) (evs : list Event) : Server :=
  foldl step w evs.

(** A server with the given states and no request in flight. *)
Definition idle (states : gmap UserId Status) : Server :=
  {| userStates := states; awaiting := ∅; next := 0; answers := [] |}.

(** Calls executed one at a time, each from its arrival to its answer. *)
Definition serial_step
    (acc : gmap UserId Status * list (nat * UserId * Response)) (c : Call)
  : gmap UserId Status * list (nat * UserId * Response) :=
  let '(n, uid, location, fenceResponse) := c in
  let (states', answer) := post_location acc.1 uid location fenceResponse in
  (states', acc.2 ++ [(n, uid, answer)]).

Definition serial (states : gmap UserId Status) (calls : list Call)
  : gmap UserId Status * list (nat * UserId * Response) :=
  foldl serial_step (states, []) calls.

(** The calls of an interleaving in the order they complete: a call
    answered 400 completes on arrival, any other when its lookup
    settles. *)
Fixpoint schedule (pending : gmap nat (UserId * Js.Val)) (n : nat)
    (evs : list Event) : list Call :=
  match evs with
  | [] => []
  | Arrive uid location :: evs' =>
      if invalid_location location
      then (n, uid, location, AxiosError) :: schedule pending (S n) evs'
      else schedule (<[n := (uid, location)]> pending) (S n) evs'
  | Settle k fenceResponse :: evs' =>
      match pending !! k with
      | None => schedule pending n evs'
      | Some (uid, location) =>
          (k, uid, location, fenceResponse)
            :: schedule (delete k pending) n evs'
      end
  end.

End EventLoop.

(** The enter and exit events answered to one user, oldest first. *)
Definition edge_of (uid : UserId) (a : nat * UserId * Response)
  : option Trigger :=
  match a with
  | (_, u, Ok200 body) =>
      if bool_decide (u = uid) && negb (bool_decide (trigger body = none))
      then Some (trigger body) else None
  | _ => None
  end.

Definition edges (uid : UserId) (log : list (nat * UserId * Response))
  : list Trigger :=
  omap (edge_of uid) log.

(** No two neighbours of the list are equal. *)
Fixpoint alternating (l : list Trigger) : bool :=
  match l with
  | a :: (b :: _) as rest => negb (bool_decide (a = b)) && alternating rest
  | _ => true
  end.

(** Every suspended handler got past the format guard. *)
Definition awaiting_valid (w : Server) : Prop :=
  ∀ n uid location,
    awaiting w !! n = Some (uid, location) → invalid_location location = false.

(** For one user: the enter and exit events answered so far alternate, and
    the last of them tells whether the user is recorded inside. *)
Definition edges_agree (uid : positive)
    (acc : gmap positive Status * list (nat * positive * Response)) : Prop :=
  alternating (edges uid acc.2) = true
  ∧ (last (edges uid acc.2) = Some enter → acc.1 !! uid = Some inside)
  ∧ (last (edges uid acc.2) = Some exit → acc.1 !! uid ≠ Some inside).

(** ** A stand-in for turf

    Used only to run the handler on concrete inputs: points are coordinate
    pairs, a pair of numbers is accepted and anything else throws, and the
    distance is a flat taxicab one at 111320 m per degree.  It is not turf's
    great-circle distance. *)

Definition flat_point (x y : Js.Val) : option (float * float) :=
  match x, y with
  | Js.Num a, Js.Num b => Some (a, b)
  | _, _ => None
  end.

Definition flat_distance (p q : float * float) : float :=
  (111320 * (abs (p.1 - q.1) + abs (p.2 - q.2)))%float.

Definition flat_turf : Turf :=
  {| Point := float * float;
     turf_point := flat_point;
     turf_distance := flat_distance |}.

(** ** Examples used by the witnesses below *)

Definition home : Fence :=
  {| id := 1; userId := 1; name := "home";
     center := (51.5, -0.125)%float; radius := 500 |}.

Definition office : Fence :=
  {| id := 2; userId := 1; name := "office";
     center := (51.5, -0.125)%float; radius := 900 |}.

Definition at_home : Js.Val := Js.Arr [Js.Num 51.5; Js.Num (-0.125)].
Definition far_away : Js.Val := Js.Arr [Js.Num 51.75; Js.Num (-0.125)].

(** A fence of radius 111320 m, and a location one degree of latitude
    north of its centre: at distance 111320 m for [flat_distance]. *)
Definition ring : Fence :=
  {| id := 3; userId := 1; name := "ring";
     center := (10, 20)%float; radius := 111320 |}.

Definition on_the_rim : Js.Val := Js.Arr [Js.Num 11; Js.Num 20].

(** A location with latitude 91 and longitude 200. *)
Definition off_the_map : Js.Val := Js.Arr [Js.Num 91; Js.Num 200].

(** The result of a first report from inside [home]. *)
Definition entered_home : TransitionResult :=
  {| trigger := enter; status := inside; fenceId := Some 1%positive |}.

(** Latitude outside [[-90, 90]] or longitude outside [[-180, 180]]. *)
Definition out_of_range (lat lon : float) : bool :=
  Js.lt lat (-90) || Js.lt 90 lat || Js.lt lon (-180) || Js.lt 180 lon.

(** No recorded status is ["unknown"]. *)
Definition never_unknown (states : gmap positive Status) : Prop :=
  ∀ uid s, states !! uid = Some s → s ≠ unknown.

(** The requests of an interleaving, in the order they arrive; the request
    numbered [n] is the one at position [n]. *)
Definition arrivals (evs : list Event) : list (positive * Js.Val) :=
  omap (λ ev, match ev with
              | Arrive uid location => Some (uid, location)
              | Settle _ _ => None
              end) evs.

(** The request number of a call. *)
Definition call_number (c : Call) : nat := c.1.1.1.

(** The statuses answered to one user, oldest first, and the latest of
    them. *)
Definition status_of (uid : UserId) (a : nat * UserId * Response)
  : option Status :=
  match a with
  | (_, u, Ok200 body) => if bool_decide (u = uid) then Some (status body) else None
  | _ => None
  end.

Definition last_status (uid : UserId) (log : list (nat * UserId * Response))
  : option Status :=
  last (omap (status_of uid) log).

(** ** Strict equality

    [a === b] for two values that come from two different request bodies:
    primitives are compared by value (numbers as doubles), and an array or
    an object is never equal to one parsed from another body. *)
Definition strict_eq (a b : Js.Val) : bool :=
  match a, b with
  | Js.Undefined, Js.Undefined | Js.Null, Js.Null => true
  | Js.Bool x, Js.Bool y => Bool.eqb x y
  | Js.Num x, Js.Num y => Js.eq x y
  | Js.Str x, Js.Str y => String.eqb x y
  | _, _ => false
  end.

(** ** The authentication middleware

    [authMiddleware] is the same function in the geofence and in the
    location service.  [jsonwebtoken] is not part of the repository:
    [jwt_sign payload secret] is the token [jwt.sign] hands to its callback
    ([None] when it reports an error) and [jwt_verify token secret] is the
    [user] field of what [jwt.verify] decodes ([None] when it throws); the
    secret of the location service is [process.env.JWT_SECRET], which may be
    undefined.  A token that verifies is taken to carry a [user] with a
    numeric id, as every token [POST /login] signs does. *)

Module Auth.

(** The [user] object of a token payload. *)
Record User := {
  id : positive;
  username : Js.Val;
}.

Class Jwt := {
  jwt_sign : User → string → option string;
  jwt_verify : string → option string → option User;
}.

(** The two 401 answers ('Access denied. No token provided.' and 'Invalid
    token.'), or the call of [next()] with [req.user] set. *)
Inductive Outcome :=
| NoToken401
| InvalidToken401
| Next (user : User).

(** [req.token] is [None] when the request carries no bearer token. *)
Definition authMiddleware `{Jwt} (JWT_SECRET : option string)
    (token : option string) : Outcome :=
  match token with
  | None => NoToken401
  | Some t =>
      if String.eqb t "" then NoToken401
      else match jwt_verify t JWT_SECRET with
           | None => InvalidToken401
           | Some user => Next user
           end
  end.

End Auth.

(** ** The geofence service *)

Module GeofenceService.

Definition JWT_SECRET : string := "REPLACE_THIS_WITH_A_REAL_SECRET_KEY".

(** A fence as [POST /geofences] stores it: [name], [center] and [radius]
    are whatever the request body held. *)
Record Geofence := {
  id : positive;
  userId : positive;
  name : Js.Val;
  center : Js.Val;
  radius : Js.Val;
}.

(** The two module variables. *)
Record Db := {
  geofences : list Geofence;
  fenceIdCounter : positive;
}.

Definition start : Db := {| geofences := []; fenceIdCounter := 1 |}.

Inductive Response :=
| Created201 (newFence : Geofence)
| Ok200 (userFences : list Geofence)
| BadRequest400
| NoToken401
| InvalidToken401.

(** The handler of [POST /geofences], behind [authMiddleware]. *)
Definition post_geofences `{Auth.Jwt} (db : Db) (token : option string)
    (name center radius : Js.Val) : Db * Response :=
  match Auth.authMiddleware (Some JWT_SECRET) token with
  | Auth.NoToken401 => (db, NoToken401)
  | Auth.InvalidToken401 => (db, InvalidToken401)
  | Auth.Next user =>
      if negb (Js.truthy name) || negb (Js.truthy center)
         || negb (Js.truthy radius)
      then (db, BadRequest400)
      else
        let newFence :=
          {| id := fenceIdCounter db;
             userId := Auth.id user;
             name := name;
             center := center;
             radius := radius |} in
        ({| geofences := geofences db ++ [newFence];
            fenceIdCounter := Pos.succ (fenceIdCounter db) |},
         Created201 newFence)
  end.

(** The handler of [GET /geofences], behind [authMiddleware]. *)
Definition get_geofences `{Auth.Jwt} (db : Db) (token : option string)
  : Response :=
  match Auth.authMiddleware (Some JWT_SECRET) token with
  | Auth.NoToken401 => NoToken401
  | Auth.InvalidToken401 => InvalidToken401
  | Auth.Next user =>
      Ok200 (filter (λ fence, userId fence = Auth.id user) (geofences db))
  end.

Inductive Request :=
| POST (token : option string) (name center radius : Js.Val)
| GET (token : option string).

Definition handle `{Auth.Jwt} (db : Db) (req : Request) : Db * Response :=
  match req with
  | POST token name center radius => post_geofences db token name center radius
  | GET token => (db, get_geofences db token)
  end.

(** The store after a sequence of requests; the handlers have no [await],
    so requests never overlap. *)
Definition run `{Auth.Jwt} (db : Db) (reqs : list Request) : Db :=
  foldl (λ db req, (handle db req).1) db reqs.

(** What a request adds to the store: owner, name, centre and radius of a
    [POST] whose token verifies and whose three fields are truthy. *)
Definition accepted `{Auth.Jwt} (req : Request)
  : option (positive * Js.Val * Js.Val * Js.Val) :=
  match req with
  | POST token name center radius =>
      match Auth.authMiddleware (Some JWT_SECRET) token with
      | Auth.Next user =>
          if Js.truthy name && Js.truthy center && Js.truthy radius
          then Some (Auth.id user, name, center, radius)
          else None
      | _ => None
      end
  | GET _ => None
  end.

Definition fields (fence : Geofence) : positive * Js.Val * Js.Val * Js.Val :=
  (userId fence, name fence, center fence, radius fence).

End GeofenceService.

(** ** The user service *)

Module UserService.

Definition JWT_SECRET : string := "REPLACE_THIS_WITH_A_REAL_SECRET_KEY".

Record User := {
  id : positive;
  username : Js.Val;
  password : string;
}.

(** [bcryptjs] is not part of the repository: [bcrypt_hash password salt]
    and [bcrypt_compare password hash] are what the promises of
    [bcrypt.hash] and [bcrypt.compare] resolve with, [None] when they
    reject.  The salt of [bcrypt.genSalt(10)] is random: it is an input of
    the call, [None] when that promise rejects. *)
Class Bcrypt := {
  bcrypt_hash : Js.Val → string → option string;
  bcrypt_compare : Js.Val → string → option bool;
}.

Inductive RegisterResponse :=
| Created201 (id : positive) (username : Js.Val)
| MissingFields400
| UsernameTaken400
| RegisterError500.

(** [users.find(u => u.username === username)] *)
Definition find_user (users : list User) (name : Js.Val) : option User :=
  List.find (λ u, strict_eq (username u) name) users.

(** [POST /register] up to its first [await]: the 400 it answers, or [None]
    when it goes on to hash the password. *)
Definition register_check (users : list User) (name pass : Js.Val)
  : option RegisterResponse :=
  if negb (Js.truthy name) || negb (Js.truthy pass) then Some MissingFields400
  else match find_user users name with
       | Some existingUser => Some UsernameTaken400
       | None => None
       end.

(** [POST /register] from the settling of [bcrypt.genSalt] to its answer;
    nothing of [users] is read between the two [await]s. *)
Definition register_finish `{Bcrypt} (users : list User) (name pass : Js.Val)
    (salt : option string) : list User * RegisterResponse :=
  match salt ≫= bcrypt_hash pass with
  | None => (users, RegisterError500)
  | Some hashedPassword =>
      let newUser :=
        {| id := Pos.of_succ_nat (length users);
           username := name;
           password := hashedPassword |} in
      (users ++ [newUser], Created201 (id newUser) (username newUser))
  end.

(** A registration that no other request overlaps. *)
Definition register `{Bcrypt} (users : list User) (name pass : Js.Val)
    (salt : option string) : list User * RegisterResponse :=
  match register_check users name pass with
  | Some answer => (users, answer)
  | None => register_finish users name pass salt
  end.

Definition register_all `{Bcrypt} (users : list User)
    (calls : list (Js.Val * Js.Val * option string)) : list User :=
  foldl (λ users c, (register users c.1.1 c.1.2 c.2).1) users calls.

(** [SignError] stands for [jwt.sign] reporting an error, which the
    callback throws. *)
Inductive LoginResponse :=
| Token200 (token : string)
| InvalidCredentials400
| LoginError500
| SignError.

(** [POST /login]; it reads [users] once, before its [await], and never
    writes it. *)
Definition login `{Bcrypt} `{Auth.Jwt} (users : list User) (name pass : Js.Val)
  : LoginResponse :=
  match find_user users name with
  | None => InvalidCredentials400
  | Some user =>
      match bcrypt_compare pass (password user) with
      | None => LoginError500
      | Some false => InvalidCredentials400
      | Some true =>
          let payload :=
            {| Auth.id := id user; Auth.username := username user |} in
          match Auth.jwt_sign payload JWT_SECRET with
          | Some token => Token200 token
          | None => SignError
          end
      end
  end.

(** Registrations under the event loop: a call runs from its arrival to the
    first [await] (or to its 400), and from the settling of the salt to its
    201 or 500. *)
Record Server := {
  users : list User;
  awaiting : gmap nat (Js.Val * Js.Val);
  next : nat;
  answers : list (nat * RegisterResponse);
}.

Inductive Event :=
| Arrive (name pass : Js.Val)
| Settle (n : nat) (salt : option string).

Definition step `{Bcrypt} (w : Server) (ev : Event) : Server :=
  match ev with
  | Arrive name pass =>
      match register_check (users w) name pass with
      | Some answer =>
          {| users := users w;
             awaiting := awaiting w;
             next := S (next w);
             answers := answers w ++ [(next w, answer)] |}
      | None =>
          {| users := users w;
             awaiting := <[next w := (name, pass)]> (awaiting w);
             next := S (next w);
             answers := answers w |}
      end
  | Settle n salt =>
      match awaiting w !! n with
      | None => w
      | Some (name, pass) =>
          let (users', answer) := register_finish (users w) name pass salt in
          {| users := users';
             awaiting := delete n (awaiting w);
             next := next w;
             answers := answers w ++ [(n, answer)] |}
      end
  end.

Definition run `{Bcrypt} (w : Server) (evs : list Event) : Server :=
  foldl step w evs.

Definition idle (users : list User) : Server :=
  {| users := users; awaiting := ∅; next := 0; answers := [] |}.

(** Ids follow the positions in [users]: the user at index [i] has id
    [i + 1]. *)
Definition ids_by_position (users : list User) : Prop :=
  ∀ i u, users !! i = Some u → id u = Pos.of_succ_nat i.

(** No user has the name of a user registered before. *)
Definition names_distinct (users : list User) : Prop :=
  ∀ i j u v,
    i < j → users !! i = Some u → users !! j = Some v →
    strict_eq (username u) (username v) = false.

End UserService.

(** ** Stand-ins for jsonwebtoken and bcryptjs

    Used only to run the services on concrete inputs.  A token is the bare
    name of its user, and two users are known, alice (id 1) and bob (id 2);
    a hash is the salt, a dollar sign and the password. *)

Definition toy_jwt : Auth.Jwt :=
  {| Auth.jwt_sign user secret :=
       match Auth.username user with Js.Str n => Some n | _ => None end;
     Auth.jwt_verify token secret :=
       match secret with
       | None => None
       | Some _ =>
           if String.eqb token "alice"
           then Some {| Auth.id := 1; Auth.username := Js.Str "alice" |}
           else if String.eqb token "bob"
           then Some {| Auth.id := 2; Auth.username := Js.Str "bob" |}
           else None
       end |}.

Definition toy_bcrypt : UserService.Bcrypt :=
  {| UserService.bcrypt_hash pass salt :=
       match pass with
       | Js.Str p => Some (salt +:+ "$" +:+ p)
       | _ => None
       end;
     UserService.bcrypt_compare pass hash :=
       match pass with
       | Js.Str p =>
           Some (String.eqb
                   (String.substring (String.length hash - String.length p)
                      (String.length p) hash) p)
       | _ => None
       end |}.

(** ** What the location service reads of a stored fence

    The loop reads [fence.id], [fence.center[0]], [fence.center[1]] and
    [fence.radius].  A stored fence whose name is a string, whose centre is
    an array starting with two numbers and whose radius is a number is the
    [Fence] below; no other stored fence is a [Fence]. *)
Definition as_fence (g : GeofenceService.Geofence) : option Fence :=
  match GeofenceService.name g, GeofenceService.center g,
        GeofenceService.radius g with
  | Js.Str n, Js.Arr (Js.Num lat :: Js.Num lon :: _), Js.Num r =>
      Some {| id := GeofenceService.id g;
              userId := GeofenceService.userId g;
              name := n;
              center := (lat, lon);
              radius := r |}
  | _, _, _ => None
  end.

(** [home] as the geofence service stores it. *)
Definition stored_home : GeofenceService.Geofence :=
  {| GeofenceService.id := 1; GeofenceService.userId := 1;
     GeofenceService.name := Js.Str "home";
     GeofenceService.center := at_home;
     GeofenceService.radius := Js.Num 500 |}.

(** * Properties *)

(** ** Numbers and the format guard *)

Lemma le_lt_or_eq (a b : float) : Js.le a b = Js.lt a b || Js.eq a b.
Proof.
  unfold Js.le, Js.lt, Js.eq.
  rewrite FloatAxioms.leb_spec, FloatAxioms.ltb_spec, FloatAxioms.eqb_spec.
  unfold SFleb, SFltb, SFeqb.
  by destruct (SFcompare (Prim2SF a) (Prim2SF b)) as [[]|].
Qed.

(** The guard lets through exactly the arrays of two elements. *)
Lemma invalid_location_false (location : Js.Val) :
  invalid_location location = false ↔ ∃ a b, location = Js.Arr [a; b].
Proof.
  split.
  - unfold invalid_location. intros Hguard.
    apply orb_false_elim in Hguard as [Hguard Hlength].
    apply orb_false_elim in Hguard as [_ Harray].
    destruct location as [| | | | |items|]; try done.
    destruct items as [|a [|b [|c rest]]]; try done. eauto.
  - by intros (a & b & ->).
Qed.

Lemma invalid_location_true (location : Js.Val) :
  invalid_location location = true ↔ ¬ ∃ a b, location = Js.Arr [a; b].
Proof.
  rewrite <- invalid_location_false. by destruct (invalid_location location).
Qed.

(** ** The handler, case by case *)

Section HandlerFacts.
Context `{Turf}.

Lemma detect_states states uid isIn fid :
  (detect states uid isIn fid).1
  = <[uid := if isIn then inside else outside]> states.
Proof. done. Qed.

Lemma detect_status states uid isIn fid :
  status (detect states uid isIn fid).2 = if isIn then inside else outside.
Proof. done. Qed.

Lemma detect_trigger states uid isIn fid :
  trigger (detect states uid isIn fid).2
  = classify (default unknown (states !! uid))
             (if isIn then inside else outside).
Proof. done. Qed.

(** What [resume] can do: answer 500 and leave the states alone, or answer
    200 with the body and the states [detect] gives. *)
Lemma resume_cases states uid location fenceResponse :
  resume states uid location fenceResponse = (states, ServerError500)
  ∨ ∃ isIn fid,
      resume states uid location fenceResponse
      = ((detect states uid isIn fid).1, Ok200 (detect states uid isIn fid).2).
Proof.
  unfold resume. destruct fenceResponse as [|geofences]; [by left|].
  destruct (turf_point _ _ ≫= _) as [[isIn fid]|]; [|by left].
  right. by exists isIn, fid.
Qed.

Lemma resume_500 states uid location fenceResponse states' :
  resume states uid location fenceResponse = (states', ServerError500) →
  states' = states.
Proof.
  destruct (resume_cases states uid location fenceResponse)
    as [->|(isIn & fid & ->)]; congruence.
Qed.

Lemma resume_200 states uid location fenceResponse states' body :
  resume states uid location fenceResponse = (states', Ok200 body) →
  ∃ isIn fid,
    states' = (detect states uid isIn fid).1
    ∧ body = (detect states uid isIn fid).2.
Proof.
  destruct (resume_cases states uid location fenceResponse)
    as [->|(isIn & fid & ->)]; [done|].
  intros [= <- <-]. eauto.
Qed.

Lemma resume_not_400 states uid location fenceResponse :
  (resume states uid location fenceResponse).2 ≠ BadRequest400.
Proof.
  by destruct (resume_cases states uid location fenceResponse)
    as [->|(isIn & fid & ->)].
Qed.

Lemma post_location_invalid states uid location fenceResponse :
  invalid_location location = true →
  post_location states uid location fenceResponse = (states, BadRequest400).
Proof. unfold post_location. by intros ->. Qed.

Lemma post_location_valid states uid location fenceResponse :
  invalid_location location = false →
  post_location states uid location fenceResponse
  = resume states uid location fenceResponse.
Proof. unfold post_location. by intros ->. Qed.

Lemma post_location_200 states uid location fenceResponse states' body :
  post_location states uid location fenceResponse = (states', Ok200 body) →
  ∃ isIn fid,
    states' = (detect states uid isIn fid).1
    ∧ body = (detect states uid isIn fid).2.
Proof.
  unfold post_location. destruct (invalid_location location); [done|].
  apply resume_200.
Qed.

(** Any call either leaves the states alone, or answers 200 and writes the
    status it answers under the caller's id. *)
Lemma post_location_cases states uid location fenceResponse :
  (post_location states uid location fenceResponse).1 = states
  ∨ ∃ body,
      post_location states uid location fenceResponse
      = (<[uid := status body]> states, Ok200 body)
      ∧ status body ≠ unknown.
Proof.
  unfold post_location. destruct (invalid_location location); [by left|].
  destruct (resume_cases states uid location fenceResponse)
    as [->|(isIn & fid & ->)]; [by left|].
  right. exists (detect states uid isIn fid).2.
  split; [done|]. by destruct isIn.
Qed.

End HandlerFacts.

(** ** Transition classification and the write *)

Lemma classify_enter (previousStatus currentStatus : Status) :
  classify previousStatus currentStatus = enter
  ↔ previousStatus ≠ inside ∧ currentStatus = inside.
Proof. destruct previousStatus, currentStatus; cbv; intuition congruence. Qed.

Lemma classify_exit (previousStatus currentStatus : Status) :
  classify previousStatus currentStatus = exit
  ↔ previousStatus = inside ∧ currentStatus = outside.
Proof. destruct previousStatus, currentStatus; cbv; intuition congruence. Qed.

Lemma classify_cases (previousStatus : Status) (isInsideAnyFence : bool) :
  let currentStatus := if isInsideAnyFence then inside else outside in
  match classify previousStatus currentStatus with
  | enter => previousStatus ≠ inside ∧ currentStatus = inside
  | exit => previousStatus = inside ∧ currentStatus = outside
  | none => previousStatus = inside ↔ currentStatus = inside
  end.
Proof. destruct previousStatus, isInsideAnyFence; cbv; intuition congruence. Qed.

Lemma classify_none (previousStatus currentStatus : Status) :
  ¬ (previousStatus ≠ inside ∧ currentStatus = inside) →
  ¬ (previousStatus = inside ∧ currentStatus = outside) →
  currentStatus ≠ unknown →
  classify previousStatus currentStatus = none.
Proof. destruct previousStatus, currentStatus; cbv; intuition congruence. Qed.

Section Transition.
Context `{Turf}.

(** C1.  Whenever a location report is answered with a result, its trigger
    is [enter] exactly when the previous status was not [inside] and the new
    one is [inside], [exit] exactly when the previous status was [inside]
    and the new one is [outside], and [none] for every other pair; the
    status of the result is the value the call has written for the user. *)
Theorem trigger_classification
    (states : gmap positive Status) uid location fenceResponse states' body :
  post_location states uid location fenceResponse = (states', Ok200 body) →
  let previousStatus := default unknown (states !! uid) in
  (trigger body = enter ↔ previousStatus ≠ inside ∧ status body = inside)
  ∧ (trigger body = exit ↔ previousStatus = inside ∧ status body = outside)
  ∧ (¬ (previousStatus ≠ inside ∧ status body = inside) →
     ¬ (previousStatus = inside ∧ status body = outside) →
     trigger body = none)
  ∧ states' !! uid = Some (status body).
Proof.
  intros (isIn & fid & -> & ->)%post_location_200 previousStatus.
  rewrite detect_trigger, detect_status, detect_states.
  fold previousStatus.
  split_and!.
  - apply classify_enter.
  - apply classify_exit.
  - intros Henter Hexit. apply classify_none; [done..|by destruct isIn].
  - apply lookup_insert_eq.
Qed.

(** C2.  When the fence lookup fails, a well-formed report is answered with
    the 500 error and the recorded states are exactly what they were: the
    state read for the user is the same before and after, and nothing is
    written. *)
Theorem lookup_failure_keeps_states
    (states : gmap positive Status) uid location :
  invalid_location location = false →
  post_location states uid location AxiosError = (states, ServerError500).
Proof. intros Hvalid. by rewrite post_location_valid. Qed.

(** C9.  A call made for one user leaves the recorded state of every other
    user as it was, whether it is answered 200, 400 or 500. *)
Theorem other_users_untouched
    (states : gmap positive Status) uid location fenceResponse (other : positive) :
  other ≠ uid →
  (post_location states uid location fenceResponse).1 !! other
  = states !! other.
Proof.
  intros Hother.
  destruct (post_location_cases states uid location fenceResponse)
    as [->|(body & -> & _)]; [done|].
  by apply lookup_insert_ne.
Qed.


(** C5, as the handler has it.  The 400 answer depends on the format of the
    location only.  A location that is not an array of two elements is
    answered 400 before anything else is done: whatever the lookup would
    have returned, nothing is written and no result is produced.  Latitude
    and longitude are not compared with any range: a pair of numbers is
    never answered 400, however large. *)
Theorem validation_error_is_pure
    (states : gmap positive Status) uid location fenceResponse :
  ((¬ ∃ a b, location = Js.Arr [a; b]) →
     ∀ fenceResponse',
       post_location states uid location fenceResponse'
       = (states, BadRequest400))
  ∧ ∀ lat lon : float,
      location = Js.Arr [Js.Num lat; Js.Num lon] →
      (post_location states uid location fenceResponse).2 ≠ BadRequest400.
Proof.
  split.
  - intros Hformat%invalid_location_true fenceResponse'.
    by apply post_location_invalid.
  - intros lat lon ->. apply resume_not_400.
Qed.

End Transition.

(** ** Containment and the fence loop *)

(** What [GET /geofences] returns keeps the order of the store, and a fence
    pushed later comes after the fences already there. *)
Lemma get_geofences_sublist (geofences : list Fence) (uid : positive) :
  get_geofences geofences uid `sublist_of` geofences.
Proof. apply sublist_filter. Qed.


Lemma get_geofences_owner (geofences : list Fence) (uid : positive) fence :
  fence ∈ get_geofences geofences uid ↔ userId fence = uid ∧ fence ∈ geofences.
Proof. unfold get_geofences. by rewrite list_elem_of_filter. Qed.

Section Containment.
Context `{Turf}.

Lemma scan_skip userPoint (before rest : list Fence) :
  Forall (λ f, isWithin userPoint f = Some false) before →
  scan userPoint (before ++ rest) = scan userPoint rest.
Proof.
  induction 1 as [|fence before Hmiss _ IH]; [done|].
  cbn. by rewrite Hmiss.
Qed.

Lemma scan_hit userPoint fence (after : list Fence) :
  isWithin userPoint fence = Some true →
  scan userPoint (fence :: after) = Some (true, Some (id fence)).
Proof. intros Hhit. cbn. by rewrite Hhit. Qed.

Lemma scan_inv userPoint (geofences : list Fence) isIn fid :
  scan userPoint geofences = Some (isIn, fid) →
  if isIn
  then ∃ before fence after,
         geofences = before ++ fence :: after
         ∧ Forall (λ f, isWithin userPoint f = Some false) before
         ∧ isWithin userPoint fence = Some true
         ∧ fid = Some (id fence)
  else fid = None
       ∧ Forall (λ f, isWithin userPoint f = Some false) geofences.
Proof.
  revert isIn fid.
  induction geofences as [|fence rest IH]; intros isIn fid; cbn.
  - by intros [= <- <-].
  - destruct (isWithin userPoint fence) as [[|]|] eqn:Hfence; cbn; [| |done].
    + intros [= <- <-]. by exists [], fence, rest.
    + intros Hrest. specialize (IH _ _ Hrest). destruct isIn.
      * destruct IH as (before & hit & after & -> & Hmiss & Hhit & ->).
        exists (fence :: before), hit, after. split_and!; [done| |done..].
        by constructor.
      * destruct IH as [-> Hmiss]. split; [done|]. by constructor.
Qed.

(** C3.  For a point and a fence turf accepts, the containment test is true
    exactly when the distance from the point to the fence centre is [<=] the
    radius, that is when it is smaller than the radius or equal to it: a
    distance equal to the radius counts as inside.  A loop over that fence
    alone reports inside, with the fence's id, in exactly that case. *)
Theorem isWithin_closed_disk userPoint fence fenceCenter :
  turf_point (Js.Num (center fence).2) (Js.Num (center fence).1)
  = Some fenceCenter →
  let distance := turf_distance userPoint fenceCenter in
  (isWithin userPoint fence = Some true
   ↔ Js.le distance (radius fence) = true)
  ∧ (isWithin userPoint fence = Some true
     ↔ Js.lt distance (radius fence) = true
       ∨ Js.eq distance (radius fence) = true)
  ∧ (Js.eq distance (radius fence) = true →
     isWithin userPoint fence = Some true)
  ∧ scan userPoint [fence]
    = Some (Js.le distance (radius fence),
            if Js.le distance (radius fence) then Some (id fence) else None).
Proof.
  intros Hcenter distance.
  assert (isWithin userPoint fence = Some (Js.le distance (radius fence)))
    as Htest by (unfold isWithin; by rewrite Hcenter).
  split_and!.
  - rewrite Htest. split; [by intros [= ->]|by intros ->].
  - rewrite Htest, le_lt_or_eq, <- orb_true_iff.
    split; [by intros [= ->]|by intros ->].
  - rewrite Htest, le_lt_or_eq. intros ->. by rewrite orb_true_r.
  - cbn. rewrite Htest. cbn. by destruct (_ <=? _)%float.
Qed.

(** C4.  Fences are tested in the order given and the first one that
    contains the point wins: when the fences before it do not contain the
    point, the loop reports inside with that fence's id, whatever fences
    follow it; when no fence contains the point, the loop reports outside
    and no fence id.  Conversely, a reported id is always the id of the
    first containing fence. *)
Theorem first_match_wins userPoint (geofences : list Fence) :
  (∀ before fence after,
     geofences = before ++ fence :: after →
     Forall (λ f, isWithin userPoint f = Some false) before →
     isWithin userPoint fence = Some true →
     scan userPoint geofences = Some (true, Some (id fence))
     ∧ ∀ after',
         scan userPoint (before ++ fence :: after')
         = scan userPoint geofences)
  ∧ (Forall (λ f, isWithin userPoint f = Some false) geofences →
     scan userPoint geofences = Some (false, None))
  ∧ (∀ isIn fid,
       scan userPoint geofences = Some (isIn, fid) →
       if isIn
       then ∃ before fence after,
              geofences = before ++ fence :: after
              ∧ Forall (λ f, isWithin userPoint f = Some false) before
              ∧ isWithin userPoint fence = Some true
              ∧ fid = Some (id fence)
       else fid = None
            ∧ Forall (λ f, isWithin userPoint f = Some false) geofences).
Proof.
  split_and!.
  - intros before fence after -> Hmiss Hhit.
    rewrite scan_skip, (scan_hit _ _ _ Hhit) by done.
    split; [done|]. intros after'.
    by rewrite scan_skip, (scan_hit _ _ _ Hhit).
  - intros Hmiss. rewrite <- (app_nil_r geofences). by rewrite scan_skip.
  - apply scan_inv.
Qed.

(** The id answered on an [enter] is the id of the first containing fence
    of the list the lookup returned. *)
Lemma enter_reports_first_match
    (states : gmap positive Status) uid a b userPoint before fence after :
  turf_point b a = Some userPoint →
  Forall (λ f, isWithin userPoint f = Some false) before →
  isWithin userPoint fence = Some true →
  states !! uid ≠ Some inside →
  post_location states uid (Js.Arr [a; b]) (AxiosOk (before ++ fence :: after))
  = (<[uid := inside]> states,
     Ok200 {| trigger := enter; status := inside; fenceId := Some (id fence) |}).
Proof.
  intros Hpoint Hmiss Hhit Hprev.
  unfold post_location, resume. cbn. rewrite Hpoint. cbn.
  rewrite scan_skip, (scan_hit _ _ _ Hhit) by done.
  unfold detect.
  assert (classify (default unknown (states !! uid)) inside = enter) as ->.
  { apply classify_enter. split; [|done].
    destruct (states !! uid) as [[]|]; naive_solver. }
  done.
Qed.

End Containment.

(** ** Sequences of calls *)

Section Sequences.
Context `{Turf}.

(** The three ways a call can end. *)
Lemma post_location_outcomes
    (states : gmap positive Status) uid location fenceResponse :
  post_location states uid location fenceResponse = (states, BadRequest400)
  ∨ post_location states uid location fenceResponse = (states, ServerError500)
  ∨ ∃ isIn fid,
      post_location states uid location fenceResponse
      = ((detect states uid isIn fid).1, Ok200 (detect states uid isIn fid).2).
Proof.
  unfold post_location. destruct (invalid_location location); [by left|].
  right. apply resume_cases.
Qed.

Lemma serial_step_states acc n uid location fenceResponse :
  (serial_step acc (n, uid, location, fenceResponse)).1
  = (post_location acc.1 uid location fenceResponse).1.
Proof.
  unfold serial_step.
  by destruct (post_location acc.1 uid location fenceResponse).
Qed.

Lemma serial_step_answers acc n uid location fenceResponse :
  (serial_step acc (n, uid, location, fenceResponse)).2
  = acc.2 ++ [(n, uid, (post_location acc.1 uid location fenceResponse).2)].
Proof.
  unfold serial_step.
  by destruct (post_location acc.1 uid location fenceResponse).
Qed.

(** A property of the states kept by every call is kept by every sequence
    of calls. *)
Lemma serial_states_ind (P : gmap positive Status → Prop) :
  (∀ states uid location fenceResponse,
     P states → P (post_location states uid location fenceResponse).1) →
  ∀ calls acc, P acc.1 → P (foldl serial_step acc calls).1.
Proof.
  intros Hcall calls.
  induction calls as [|[[[n uid] location] fenceResponse] calls IH];
    intros acc Hacc; [done|].
  cbn [foldl]. apply IH. rewrite serial_step_states. by apply Hcall.
Qed.

Lemma post_location_never_unknown
    (states : gmap positive Status) uid location fenceResponse :
  never_unknown states →
  never_unknown (post_location states uid location fenceResponse).1.
Proof.
  intros Hstates.
  destruct (post_location_cases states uid location fenceResponse)
    as [->|(body & -> & Hbody)]; [done|].
  intros other s. cbn. rewrite lookup_insert. case_decide; [|by apply Hstates].
  by intros [= <-].
Qed.

Lemma post_location_stays_known
    (states : gmap positive Status) uid location fenceResponse (user : positive) :
  default unknown (states !! user) ≠ unknown →
  default unknown
    ((post_location states uid location fenceResponse).1 !! user) ≠ unknown.
Proof.
  intros Hknown.
  destruct (post_location_cases states uid location fenceResponse)
    as [->|(body & -> & Hbody)]; [done|].
  cbn. rewrite lookup_insert. by case_decide.
Qed.

(** C7.  [unknown] is only the status read for a user nothing is recorded
    for.  A call either writes nothing or writes [inside] or [outside]
    under the caller's id; so starting from the empty [userStates] no
    sequence of calls ever records [unknown], and once a call for a user has
    been answered with a result, the status read for that user is never
    [unknown] again, whatever calls follow. *)
Theorem unknown_is_only_initial :
  (∀ (states : gmap positive Status) uid location fenceResponse,
     (post_location states uid location fenceResponse).1 = states
     ∨ (post_location states uid location fenceResponse).1
       = <[uid := inside]> states
     ∨ (post_location states uid location fenceResponse).1
       = <[uid := outside]> states)
  ∧ (∀ calls, never_unknown (serial ∅ calls).1)
  ∧ (∀ (states : gmap positive Status) uid location fenceResponse
       states' body calls,
       post_location states uid location fenceResponse
       = (states', Ok200 body) →
       default unknown (states' !! uid) ≠ unknown
       ∧ default unknown ((serial states' calls).1 !! uid) ≠ unknown).
Proof.
  split_and!.
  - intros states uid location fenceResponse.
    destruct (post_location_outcomes states uid location fenceResponse)
      as [->|[->|(isIn & fid & ->)]]; [by left..|].
    right. rewrite detect_states. destruct isIn; [by left|by right].
  - intros calls. unfold serial.
    apply (serial_states_ind never_unknown); [|done].
    intros. by apply post_location_never_unknown.
  - intros states uid location fenceResponse states' body calls Hcall.
    assert (default unknown (states' !! uid) ≠ unknown) as Hknown.
    { destruct (post_location_200 _ _ _ _ _ _ Hcall) as (isIn & fid & -> & _).
      rewrite detect_states, lookup_insert_eq. by destruct isIn. }
    split; [done|]. unfold serial.
    apply (serial_states_ind (λ st, default unknown (st !! uid) ≠ unknown));
      [|done].
    intros. by apply post_location_stays_known.
Qed.

End Sequences.

(** ** Interleaved calls *)

Lemma alternating_snoc (l : list Trigger) (x : Trigger) :
  alternating (l ++ [x]) = alternating l && negb (bool_decide (last l = Some x)).
Proof.
  induction l as [|a l IH]; [done|]. destruct l as [|b l].
  - cbn. rewrite andb_true_r. f_equal.
    apply bool_decide_ext. naive_solver.
  - change (alternating ((a :: b :: l) ++ [x]))
      with (negb (bool_decide (a = b)) && alternating ((b :: l) ++ [x])).
    rewrite IH. cbn [alternating last]. by rewrite andb_assoc.
Qed.

Lemma edges_snoc uid log (a : nat * positive * Response) :
  edges uid (log ++ [a]) = edges uid log ++ option_list (edge_of uid a).
Proof.
  unfold edges. rewrite omap_app. f_equal.
Qed.

Lemma edge_of_other uid n (user : positive) answer :
  user ≠ uid → edge_of uid (n, user, answer) = None.
Proof.
  intros Hother. destruct answer; [|done..]. cbn.
  by rewrite bool_decide_eq_false_2.
Qed.

Lemma edge_of_own uid n body :
  edge_of uid (n, uid, Ok200 body)
  = if bool_decide (trigger body = none) then None else Some (trigger body).
Proof. cbn. rewrite bool_decide_eq_true_2 by done. by case_bool_decide. Qed.

Section Interleaving.
Context `{Turf}.

Lemma step_awaiting_valid w ev : awaiting_valid w → awaiting_valid (step w ev).
Proof.
  intros Hvalid. destruct ev as [uid location|k fenceResponse]; cbn.
  - destruct (invalid_location location) eqn:Hguard; [done|].
    intros n user loc. cbn. rewrite lookup_insert. case_decide; [|apply Hvalid].
    by intros [= <- <-].
  - destruct (awaiting w !! k) as [[uid location]|] eqn:Hk; [|done].
    destruct (resume _ _ _ _) as [states' answer].
    intros n user loc. cbn. rewrite lookup_delete. case_decide; [done|].
    apply Hvalid.
Qed.

(** An interleaving does what its calls do when run one after the other in
    the order they complete. *)
Lemma run_schedule evs w :
  awaiting_valid w →
  (userStates (run w evs), answers (run w evs))
  = foldl serial_step (userStates w, answers w)
      (schedule (awaiting w) (next w) evs).
Proof.
  revert w. induction evs as [|ev evs IH]; intros w Hvalid; [done|].
  unfold run. cbn [foldl]. fold (run (step w ev) evs).
  rewrite IH by by apply step_awaiting_valid.
  destruct ev as [uid location|k fenceResponse]; cbn [schedule step].
  - destruct (invalid_location location) eqn:Hguard; cbn; [|done].
    by rewrite post_location_invalid.
  - destruct (awaiting w !! k) as [[uid location]|] eqn:Hk; [|done].
    cbn. rewrite post_location_valid by by eapply Hvalid.
    by destruct (resume _ _ _ _).
Qed.

(** The calls of the schedule are requests that arrived, each with its own
    user and location. *)
Lemma schedule_arrived evs :
  ∀ (pending : gmap nat (positive * Js.Val)) k arrived,
    List.length arrived = k →
    (∀ n uid location,
       pending !! n = Some (uid, location) →
       arrived !! n = Some (uid, location)) →
    ∀ n uid location fenceResponse,
      (n, uid, location, fenceResponse) ∈ schedule pending k evs →
      (arrived ++ arrivals evs) !! n = Some (uid, location).
Proof.
  induction evs as [|[user loc|j settled] evs IH];
    intros pending k arrived Hlength Hpending n uid location fenceResponse;
    cbn [schedule]; [by intros ?%elem_of_nil| |].
  - change (arrivals (Arrive user loc :: evs))
      with ([(user, loc)] ++ arrivals evs).
    rewrite app_assoc.
    assert (List.length (arrived ++ [(user, loc)]) = S k) as Hlength'
      by (rewrite length_app; cbn; lia).
    assert ((arrived ++ [(user, loc)]) !! k = Some (user, loc)) as Hlast
      by (rewrite lookup_app_r, Hlength, Nat.sub_diag by lia; done).
    destruct (invalid_location loc).
    + intros [[= -> -> -> ->]|Hrest]%elem_of_cons.
      * by apply lookup_app_l_Some.
      * eapply IH; [done| |done].
        intros m u l Hm. by apply lookup_app_l_Some, Hpending.
    + eapply IH; [done|].
      intros m u l. rewrite lookup_insert. case_decide as Hm.
      * intros [= <- <-]. by subst m.
      * intros Hm'. by apply lookup_app_l_Some, Hpending.
  - change (arrivals (Settle j settled :: evs)) with (arrivals evs).
    destruct (pending !! j) as [[user loc]|] eqn:Hj.
    + intros [[= -> -> -> ->]|Hrest]%elem_of_cons.
      * by apply lookup_app_l_Some, Hpending.
      * eapply IH; [done| |done].
        intros m u l. rewrite lookup_delete. case_decide; [done|].
        apply Hpending.
    + by eapply IH.
Qed.

(** No call is scheduled twice. *)
Lemma schedule_numbers evs :
  ∀ (pending : gmap nat (positive * Js.Val)) k,
    (∀ n, is_Some (pending !! n) → n < k) →
    NoDup (call_number <$> schedule pending k evs)
    ∧ ∀ n, n ∈ call_number <$> schedule pending k evs →
           is_Some (pending !! n) ∨ k ≤ n.
Proof.
  induction evs as [|[user loc|j settled] evs IH];
    intros pending k Hbound; cbn [schedule].
  - split; [constructor|]. by intros n ?%elem_of_nil.
  - destruct (invalid_location loc).
    + destruct (IH pending (S k)) as [Hnodup Hfrom].
      { intros n Hn. specialize (Hbound n Hn). lia. }
      split.
      * cbn. constructor; [|done].
        intros [Hk|Hk]%Hfrom; [specialize (Hbound k Hk)|]; lia.
      * intros n [->|[?|?]%Hfrom]%elem_of_cons; [right; cbn; lia|by left|].
        right. lia.
    + destruct (IH (<[k := (user, loc)]> pending) (S k)) as [Hnodup Hfrom].
      { intros n. rewrite lookup_insert. case_decide; [lia|].
        intros Hn. specialize (Hbound n Hn). lia. }
      split; [done|].
      intros n [Hn|Hn]%Hfrom; [|right; lia].
      revert Hn. rewrite lookup_insert. case_decide; [right; lia|by left].
  - destruct (pending !! j) as [[user loc]|] eqn:Hj; [|by apply IH].
    destruct (IH (delete j pending) k) as [Hnodup Hfrom].
    { intros n. rewrite lookup_delete. case_decide; [by intros []|].
      apply Hbound. }
    split.
    + cbn. constructor; [|done].
      intros [Hin|Hin]%Hfrom.
      * rewrite lookup_delete_eq in Hin. by destruct Hin.
      * assert (j < k) by (apply Hbound; by rewrite Hj). lia.
    + intros n [->|Hin]%elem_of_cons; [left; cbn; by rewrite Hj|].
      apply Hfrom in Hin as [Hin|?]; [left|by right].
      revert Hin. rewrite lookup_delete. case_decide; [by intros []|done].
Qed.

Lemma serial_step_edges_agree uid acc (c : Call) :
  edges_agree uid acc → edges_agree uid (serial_step acc c).
Proof.
  destruct acc as [states log], c as [[[n user] location] fenceResponse].
  unfold edges_agree. intros (Halt & Henter & Hexit).
  rewrite serial_step_states, serial_step_answers, edges_snoc. cbn [fst snd] in *.
  destruct (decide (user = uid)) as [->|Hother].
  - destruct (post_location_outcomes states uid location fenceResponse)
      as [->|[->|(isIn & fid & ->)]];
      [cbn; by rewrite app_nil_r..|].
    cbn [fst snd]. rewrite edge_of_own, detect_states, detect_trigger.
    rewrite lookup_insert_eq.
    pose proof (classify_cases (default unknown (states !! uid)) isIn) as Hcase.
    cbv zeta in Hcase. destruct (classify _ _).
    + rewrite bool_decide_eq_false_2 by done. cbn [option_list option_rect].
      rewrite alternating_snoc, last_snoc, Halt. destruct Hcase as [Hprev ->].
      split_and!; [|done..]. cbn. rewrite negb_true_iff, bool_decide_eq_false.
      intros Hlast. apply Hprev. by rewrite (Henter Hlast).
    + rewrite bool_decide_eq_false_2 by done. cbn [option_list option_rect].
      rewrite alternating_snoc, last_snoc, Halt. destruct Hcase as [Hprev ->].
      split_and!; [|done..]. cbn. rewrite negb_true_iff, bool_decide_eq_false.
      intros Hlast. apply (Hexit Hlast).
      by destruct (states !! uid) as [[]|].
    + rewrite bool_decide_eq_true_2 by done. cbn [option_list option_rect].
      rewrite app_nil_r. split_and!; [done| |].
      * intros Hlast. f_equal. apply Hcase. by rewrite (Henter Hlast).
      * intros Hlast [= Hcur]. apply (Hexit Hlast).
        apply Hcase in Hcur. by destruct (states !! uid) as [[]|].
  - rewrite edge_of_other by done. cbn. rewrite app_nil_r.
    destruct (post_location_cases states user location fenceResponse)
      as [->|(body & -> & _)]; [done|].
    cbn. by rewrite lookup_insert_ne.
Qed.

Lemma serial_edges_agree uid calls acc :
  edges_agree uid acc → edges_agree uid (foldl serial_step acc calls).
Proof.
  revert acc. induction calls as [|c calls IH]; intros acc Hacc; [done|].
  cbn [foldl]. by apply IH, serial_step_edges_agree.
Qed.

(** C6.  Under every interleaving of calls (arrivals and settled lookups in
    any order, for any users), the states recorded and the answers sent are
    those of running the calls one at a time, each from its arrival to its
    answer, in the order they complete; every call is there at most once
    and is a request that arrived.  The read of the previous status and
    the write of the new one are thus never separated by another call, and
    for each user the enter and exit events alternate: two calls never both
    fire [enter] from the same observed status. *)
Theorem interleavings_serialize (states : gmap positive Status) evs :
  (userStates (run (idle states) evs), answers (run (idle states) evs))
  = serial states (schedule ∅ 0 evs)
  ∧ NoDup (call_number <$> schedule ∅ 0 evs)
  ∧ (∀ n uid location fenceResponse,
       (n, uid, location, fenceResponse) ∈ schedule ∅ 0 evs →
       arrivals evs !! n = Some (uid, location))
  ∧ ∀ uid, alternating (edges uid (answers (run (idle states) evs))) = true.
Proof.
  assert ((userStates (run (idle states) evs),
           answers (run (idle states) evs))
          = serial states (schedule ∅ 0 evs)) as Hserial.
  { by rewrite run_schedule. }
  split_and!; [done| | |].
  - apply schedule_numbers. by intros n [? ?].
  - intros n uid location fenceResponse Hcall.
    by apply (schedule_arrived evs ∅ 0 []) in Hcall.
  - intros uid.
    change (answers (run (idle states) evs))
      with (userStates (run (idle states) evs),
            answers (run (idle states) evs)).2.
    rewrite Hserial. unfold serial.
    by apply (serial_edges_agree uid _ (states, [])).
Qed.

End Interleaving.

(** ** Concrete runs *)

Lemma trigger_classification_witness :
  post_location (H := flat_turf) ∅ 1 at_home (AxiosOk [home])
  = (<[1%positive := inside]> ∅, Ok200 entered_home)
  ∧ (trigger entered_home = enter
     ↔ default unknown ((∅ : gmap positive Status) !! 1%positive) ≠ inside
       ∧ status entered_home = inside)
  ∧ (trigger entered_home = exit
     ↔ default unknown ((∅ : gmap positive Status) !! 1%positive) = inside
       ∧ status entered_home = outside)
  ∧ (¬ (default unknown ((∅ : gmap positive Status) !! 1%positive) ≠ inside
        ∧ status entered_home = inside) →
     ¬ (default unknown ((∅ : gmap positive Status) !! 1%positive) = inside
        ∧ status entered_home = outside) →
     trigger entered_home = none)
  ∧ (<[1%positive := inside]> (∅ : gmap positive Status)) !! 1%positive
    = Some (status entered_home).
Proof.
  split; [vm_compute; reflexivity|].
  apply (trigger_classification (H := flat_turf)
           ∅ 1%positive at_home (AxiosOk [home])).
  vm_compute; reflexivity.
Defined.

Lemma lookup_failure_keeps_states_witness :
  invalid_location at_home = false
  ∧ post_location (H := flat_turf) {[1%positive := inside]} 1 at_home AxiosError
    = ({[1%positive := inside]}, ServerError500).
Proof.
  split; [reflexivity|].
  apply (lookup_failure_keeps_states (H := flat_turf)); reflexivity.
Defined.

Lemma other_users_untouched_witness :
  (post_location (H := flat_turf) {[2%positive := inside]} 1 at_home
     (AxiosOk [home])).1 !! 2%positive
  = ({[2%positive := inside]} : gmap positive Status) !! 2%positive.
Proof.
  apply (other_users_untouched (H := flat_turf)). vm_compute. discriminate.
Defined.

(** On the rim of [ring] the distance equals the radius, and the point is
    inside. *)
Lemma isWithin_closed_disk_witness :
  Js.eq (flat_distance (20, 11)%float (20, 10)%float) (radius ring) = true
  ∧ isWithin (H := flat_turf) (20, 11)%float ring = Some true.
Proof.
  split; [vm_compute; reflexivity|].
  apply (isWithin_closed_disk (H := flat_turf)
           (20, 11)%float ring (20, 10)%float); vm_compute; reflexivity.
Defined.

(** [home] and [office] both contain the point; [home] comes first and
    wins, after [ring] that does not contain it. *)
Lemma first_match_wins_witness :
  isWithin (H := flat_turf) (-0.125, 51.5)%float office = Some true
  ∧ scan (H := flat_turf) (-0.125, 51.5)%float [ring; home; office]
    = Some (true, Some 1%positive).
Proof.
  split; [vm_compute; reflexivity|].
  apply (proj1 (first_match_wins (H := flat_turf)
                  (-0.125, 51.5)%float [ring; home; office])
           [ring] home [office]).
  - reflexivity.
  - repeat constructor.
  - vm_compute; reflexivity.
Defined.

(** C5 as the specification words it fails: a report with latitude 91 and
    longitude 200 is answered 200 with a result, and the user's state is
    written; with a failing lookup it is answered 500, whatever turf does.
    It is never answered 400. *)
Lemma out_of_range_is_accepted :
  out_of_range 91 200 = true
  ∧ post_location (H := flat_turf) ∅ 1 off_the_map (AxiosOk [])
    = (<[1%positive := outside]> ∅,
       Ok200 {| trigger := none; status := outside; fenceId := None |})
  ∧ (post_location (H := flat_turf) ∅ 1 off_the_map (AxiosOk [])).2
    ≠ BadRequest400
  ∧ (post_location (H := flat_turf) ∅ 1 off_the_map (AxiosOk [])).1
      !! 1%positive = Some outside
  ∧ ∀ T : Turf,
      post_location (H := T) ∅ 1 off_the_map AxiosError = (∅, ServerError500).
Proof. split_and!; try (vm_compute; reflexivity); done. Qed.

Lemma validation_error_is_pure_witness :
  (∀ fenceResponse',
     post_location (H := flat_turf) ∅ 1 (Js.Arr [Js.Num 91]) fenceResponse'
     = (∅, BadRequest400))
  ∧ (post_location (H := flat_turf) ∅ 1 off_the_map (AxiosOk [])).2
    ≠ BadRequest400.
Proof.
  split.
  - apply (proj1 (validation_error_is_pure (H := flat_turf)
                    ∅ 1%positive (Js.Arr [Js.Num 91]) AxiosError)).
    intros (a & b & [=]).
  - apply (proj2 (validation_error_is_pure (H := flat_turf)
                    ∅ 1%positive off_the_map (AxiosOk [])) 91%float 200%float).
    reflexivity.
Defined.



Lemma unknown_is_only_initial_witness :
  default unknown
    ((<[1%positive := inside]> (∅ : gmap positive Status)) !! 1%positive)
  ≠ unknown
  ∧ default unknown
      ((serial (H := flat_turf) (<[1%positive := inside]> ∅)
          [(1, 1%positive, far_away, AxiosOk [home]);
           (2, 1%positive, at_home, AxiosError)]).1 !! 1%positive)
    ≠ unknown.
Proof.
  apply (proj2 (proj2 (unknown_is_only_initial (H := flat_turf)))
           ∅ 1%positive at_home (AxiosOk [home])
           (<[1%positive := inside]> ∅)
           {| trigger := enter; status := inside; fenceId := Some 1%positive |}).
  vm_compute; reflexivity.
Defined.

(** The sequence of the specification: outside, inside, inside, outside
    gives the triggers none, enter, none, exit. *)
Example sequence_triggers :
  (serial (H := flat_turf) ∅
     [(0, 1%positive, far_away, AxiosOk [home]);
      (1, 1%positive, at_home, AxiosOk [home]);
      (2, 1%positive, at_home, AxiosOk [home]);
      (3, 1%positive, far_away, AxiosOk [home])]).2
  = [(0, 1%positive,
      Ok200 {| trigger := none; status := outside; fenceId := None |});
     (1, 1%positive,
      Ok200 {| trigger := enter; status := inside; fenceId := Some 1%positive |});
     (2, 1%positive,
      Ok200 {| trigger := none; status := inside; fenceId := None |});
     (3, 1%positive,
      Ok200 {| trigger := exit; status := outside; fenceId := None |})].
Proof. vm_compute; reflexivity. Qed.

(** Two calls of one user, both arrived before either lookup settles: only
    the first to resume fires [enter]. *)
Example overlapping_calls :
  answers (run (H := flat_turf) (idle ∅)
             [Arrive 1 at_home; Arrive 1 at_home;
              Settle 1 (AxiosOk [home]); Settle 0 (AxiosOk [home])])
  = [(1, 1%positive,
      Ok200 {| trigger := enter; status := inside; fenceId := Some 1%positive |});
     (0, 1%positive,
      Ok200 {| trigger := none; status := inside; fenceId := None |})].
Proof. vm_compute; reflexivity. Qed.

(** A first report from the rim of [ring] enters it. *)
Example rim_is_inside :
  post_location (H := flat_turf) ∅ 1 on_the_rim (AxiosOk [ring])
  = (<[1%positive := inside]> ∅,
     Ok200 {| trigger := enter; status := inside; fenceId := Some 3%positive |}).
Proof. vm_compute; reflexivity. Qed.

(** * Further properties of the location service *)

Section Reports.
Context `{Turf}.

(** X1.  [userStates] changes only together with a 200 answer, and then only
    by the write of the answered status under the caller's id: a 400 or a
    500 answer, whatever caused it (a failed lookup, a location or a fence
    centre turf rejects), leaves it as it was. *)
Theorem states_change_only_with_200
    (states : gmap positive Status) uid location fenceResponse :
  match (post_location states uid location fenceResponse).2 with
  | Ok200 body =>
      (post_location states uid location fenceResponse).1
      = <[uid := status body]> states
  | BadRequest400 | ServerError500 =>
      (post_location states uid location fenceResponse).1 = states
  end.
Proof.
  by destruct (post_location_outcomes states uid location fenceResponse)
    as [->|[->|(isIn & fid & ->)]].
Qed.

(** X2.  Sending the same report again, with the lookup returning the same
    fences, fires nothing: the second answer has trigger [none], the same
    status and no fence id, and the states stay as the first call left
    them. *)
Theorem retry_is_silent
    (states : gmap positive Status) uid location fenceResponse states' body :
  post_location states uid location fenceResponse = (states', Ok200 body) →
  post_location states' uid location fenceResponse
  = (states',
     Ok200 {| trigger := none; status := status body; fenceId := None |}).
Proof.
  unfold post_location. destruct (invalid_location location); [done|].
  unfold resume. destruct fenceResponse as [|geofences]; [done|].
  destruct (turf_point _ _ ≫= _) as [[isIn fid]|]; [|done].
  intros [= <- <-]. unfold detect. cbn.
  rewrite lookup_insert_eq, insert_insert_eq. by destruct isIn.
Qed.

(** X3.  While a user is recorded inside, no fence id is ever answered: a
    report that is inside again, be it in another fence, gets trigger
    [none] and a null fence id, and the only event that can fire is
    [exit]. *)
Theorem inside_hides_fence_switch
    (states : gmap positive Status) uid location fenceResponse states' body :
  states !! uid = Some inside →
  post_location states uid location fenceResponse = (states', Ok200 body) →
  fenceId body = None
  ∧ trigger body ≠ enter
  ∧ (status body = inside → trigger body = none)
  ∧ (status body = outside → trigger body = exit).
Proof.
  intros Hprev (isIn & fid & -> & ->)%post_location_200.
  unfold detect. cbn. rewrite Hprev. by destruct isIn.
Qed.

(** X4.  A fence id is answered exactly when the trigger is [enter], and it
    is then the id of one of the fences the lookup returned, one that
    contains the reported point. *)
Theorem fence_id_only_on_enter
    (states : gmap positive Status) uid location geofences states' body :
  post_location states uid location (AxiosOk geofences)
  = (states', Ok200 body) →
  (is_Some (fenceId body) ↔ trigger body = enter)
  ∧ ∀ fid, fenceId body = Some fid →
      ∃ userPoint fence,
        turf_point (Js.index location 1) (Js.index location 0) = Some userPoint
        ∧ fence ∈ geofences
        ∧ id fence = fid
        ∧ isWithin userPoint fence = Some true.
Proof.
  unfold post_location. destruct (invalid_location location); [done|].
  unfold resume.
  destruct (turf_point _ _) as [userPoint|] eqn:Hpoint; [|done]. cbn.
  destruct (scan userPoint geofences) as [[isIn fid]|] eqn:Hscan; [|done].
  intros [= <- <-]. apply scan_inv in Hscan. unfold detect. cbn.
  destruct isIn.
  - destruct Hscan as (before & fence & after & -> & _ & Hhit & ->).
    destruct (states !! uid) as [[]|]; cbn;
      (split; [split; [by intros [??]|by eauto]|]);
      intros ? [= <-]; exists userPoint, fence;
      split_and!; try done; set_solver.
  - destruct Hscan as [-> _].
    destruct (states !! uid) as [[]|]; cbn;
      (split; [split; [by intros [??]|done]|done]).
Qed.

(** A fence whose centre turf rejects makes the whole report fail when
    the loop reaches it: if no fence before it contains the point, the
    answer is 500 and nothing is written, even if a later fence contains
    the point. *)
Lemma malformed_fence_poisons
    (states : gmap positive Status) uid a b userPoint before bad after :
  turf_point b a = Some userPoint →
  Forall (λ f, isWithin userPoint f = Some false) before →
  isWithin userPoint bad = None →
  post_location states uid (Js.Arr [a; b]) (AxiosOk (before ++ bad :: after))
  = (states, ServerError500).
Proof.
  intros Hpoint Hmiss Hbad.
  unfold post_location, resume. cbn. rewrite Hpoint. cbn.
  rewrite scan_skip by done. cbn. by rewrite Hbad.
Qed.




End Reports.

Lemma last_status_snoc uid log (a : nat * positive * Response) :
  last_status uid (log ++ [a])
  = match status_of uid a with
    | Some s => Some s
    | None => last_status uid log
    end.
Proof.
  unfold last_status. rewrite omap_app. cbn.
  destruct (status_of uid a); [by rewrite last_snoc|by rewrite app_nil_r].
Qed.

Section LatestAnswer.
Context `{Turf}.

Lemma serial_step_latest (initial : gmap positive Status) uid acc (c : Call) :
  acc.1 !! uid = from_option Some (initial !! uid) (last_status uid acc.2) →
  (serial_step acc c).1 !! uid
  = from_option Some (initial !! uid) (last_status uid (serial_step acc c).2).
Proof.
  destruct acc as [states log], c as [[[n user] location] fenceResponse].
  cbn [fst snd]. intros Hacc.
  rewrite serial_step_states, serial_step_answers, last_status_snoc.
  cbn [fst snd].
  destruct (post_location_outcomes states user location fenceResponse)
    as [->|[->|(isIn & fid & ->)]]; [done..|].
  cbn [fst snd status_of]. rewrite detect_states, detect_status.
  case_bool_decide as Huser.
  - subst user. by rewrite lookup_insert_eq.
  - by rewrite lookup_insert_ne.
Qed.

(** X5.  Under every interleaving of calls, the status recorded for a user
    is the status of the latest result answered to that user, and the
    status recorded at the start when no result has been answered yet. *)
Theorem recorded_status_is_latest_answer
    (states : gmap positive Status) evs uid :
  userStates (run (idle states) evs) !! uid
  = match last_status uid (answers (run (idle states) evs)) with
    | Some s => Some s
    | None => states !! uid
    end.
Proof.
  pose proof (run_schedule evs (idle states)) as Hrun.
  cbn [idle userStates answers awaiting next] in Hrun.
  assert (∀ calls acc,
            acc.1 !! uid
            = from_option Some (states !! uid) (last_status uid acc.2) →
            (foldl serial_step acc calls).1 !! uid
            = from_option Some (states !! uid)
                (last_status uid (foldl serial_step acc calls).2)) as Hfold.
  { induction calls as [|c calls IH]; intros acc Hacc; [done|].
    cbn [foldl]. by apply IH, serial_step_latest. }
  specialize (Hfold (schedule ∅ 0 evs) (states, []) eq_refl).
  rewrite <- Hrun in Hfold by done. cbn [fst snd] in Hfold.
  rewrite Hfold. by destruct (last_status uid _).
Qed.

End LatestAnswer.

(** * The geofence service *)

Section GeofenceFacts.
Context `{Auth.Jwt}.
Import GeofenceService.

Lemma handle_cases db req :
  (handle db req).1 = db ∧ accepted req = None
  ∨ ∃ owner name center radius,
      accepted req = Some (owner, name, center, radius)
      ∧ (handle db req).1
        = {| geofences :=
               geofences db
               ++ [{| id := fenceIdCounter db; userId := owner; name := name;
                      center := center; radius := radius |}];
             fenceIdCounter := Pos.succ (fenceIdCounter db) |}.
Proof.
  destruct req as [token name center radius|token]; [|by left]. cbn.
  unfold post_geofences.
  destruct (Auth.authMiddleware _ token) as [| |user]; [by left..|].
  destruct (Js.truthy name), (Js.truthy center), (Js.truthy radius); cbn;
    try (by left).
  right. by exists (Auth.id user), name, center, radius.
Qed.

Lemma run_snoc db reqs req :
  run db (reqs ++ [req]) = (handle (run db reqs) req).1.
Proof. unfold run. by rewrite foldl_app. Qed.

(** X7.  Starting from the empty store, after any sequence of requests the
    fence at position [i] of the store has id [i + 1] and the counter is
    one more than the number of fences: ids are handed out in creation
    order, never skipped and never reused, so no two fences share an id. *)
Theorem fence_ids_count_up reqs :
  (∀ i fence,
     geofences (run start reqs) !! i = Some fence →
     id fence = Pos.of_succ_nat i)
  ∧ fenceIdCounter (run start reqs)
    = Pos.of_succ_nat (length (geofences (run start reqs)))
  ∧ NoDup (id <$> geofences (run start reqs)).
Proof.
  assert ((∀ i fence,
             geofences (run start reqs) !! i = Some fence →
             id fence = Pos.of_succ_nat i)
          ∧ fenceIdCounter (run start reqs)
            = Pos.of_succ_nat (length (geofences (run start reqs))))
    as [Hids Hcounter].
  { induction reqs as [|req reqs IH] using rev_ind.
    - split; [|done]. intros i fence Hi. cbn in Hi. by rewrite lookup_nil in Hi.
    - rewrite run_snoc. destruct IH as [Hids Hcounter].
      destruct (handle_cases (run start reqs) req)
        as [[-> _]|(owner & name & center & radius & _ & ->)]; [done|].
      cbn. split.
      + intros i fence [[_ ?]|[-> <-]]%lookup_snoc_Some; [by apply Hids|].
        by rewrite Hcounter.
      + rewrite Hcounter, length_app. cbn. f_equal. lia. }
  split_and!; [done..|].
  apply NoDup_alt. intros i j fid.
  rewrite !list_lookup_fmap.
  destruct (geofences _ !! i) as [fi|] eqn:Hi; [|done].
  destruct (geofences _ !! j) as [fj|] eqn:Hj; [|done].
  cbn. intros [= <-] [= Heq].
  rewrite (Hids _ _ Hi), (Hids _ _ Hj) in Heq. lia.
Qed.

Lemma filter_fields (owner : positive) (fences : list Geofence) :
  fields <$> filter (λ fence, userId fence = owner) fences
  = filter (λ x, x.1.1.1 = owner) (fields <$> fences).
Proof.
  induction fences as [|fence fences IH]; [done|].
  rewrite fmap_cons, !filter_cons. cbn.
  case_decide; cbn; by rewrite IH.
Qed.

(** X8.  The store is exactly the record of the accepted creations: after
    any sequence of requests, its fences are, in order, those it had and
    one fence for every [POST] whose token verified and whose name, centre
    and radius were truthy, owned by the user the token verified to and
    holding the three fields as sent.  No other request adds, changes or
    removes a fence, and [GET] answers a user with that user's part of the
    record. *)
Theorem fences_are_the_accepted_posts db reqs :
  fields <$> geofences (run db reqs)
  = (fields <$> geofences db) ++ omap accepted reqs
  ∧ ∀ token user,
      Auth.authMiddleware (Some JWT_SECRET) token = Auth.Next user →
      ∃ userFences,
        get_geofences (run db reqs) token = Ok200 userFences
        ∧ fields <$> userFences
          = filter (λ x, x.1.1.1 = Auth.id user)
              ((fields <$> geofences db) ++ omap accepted reqs).
Proof.
  assert (fields <$> geofences (run db reqs)
          = (fields <$> geofences db) ++ omap accepted reqs) as Hstore.
  { induction reqs as [|req reqs IH] using rev_ind.
    - by rewrite app_nil_r.
    - rewrite run_snoc, omap_app, app_assoc, <- IH.
      destruct (handle_cases (run db reqs) req)
        as [[Hdb Hreq]|(owner & name & center & radius & Hreq & Hdb)];
        rewrite Hdb; cbn; rewrite Hreq; cbn.
      + by rewrite app_nil_r.
      + by rewrite fmap_app. }
  split; [done|]. intros token user Hauth.
  unfold get_geofences. rewrite Hauth. eexists. split; [done|].
  by rewrite filter_fields, Hstore.
Qed.

(** X9.  A fence just created is listed last for its owner: the [POST]
    answers 201 with a fence carrying the counter as its id, the owner's
    [GET] then returns what it returned before followed by that fence, and
    the [GET] of any other user returns what it returned before. *)
Theorem create_then_list db token user name center radius :
  Auth.authMiddleware (Some JWT_SECRET) token = Auth.Next user →
  Js.truthy name = true →
  Js.truthy center = true →
  Js.truthy radius = true →
  ∃ db' newFence userFences,
    post_geofences db token name center radius = (db', Created201 newFence)
    ∧ newFence
      = {| id := fenceIdCounter db; userId := Auth.id user; name := name;
           center := center; radius := radius |}
    ∧ get_geofences db token = Ok200 userFences
    ∧ get_geofences db' token = Ok200 (userFences ++ [newFence])
    ∧ ∀ token' user',
        Auth.authMiddleware (Some JWT_SECRET) token' = Auth.Next user' →
        Auth.id user' ≠ Auth.id user →
        get_geofences db' token' = get_geofences db token'.
Proof.
  intros Hauth Hname Hcenter Hradius.
  unfold post_geofences, get_geofences.
  rewrite Hauth, Hname, Hcenter, Hradius. cbn.
  eexists _, _, _. split_and!; [done..| |]; cbn [geofences].
  - rewrite filter_app, filter_cons, filter_nil. cbn [userId].
    by rewrite decide_True.
  - intros token' user' -> Hother.
    rewrite filter_app, filter_cons, filter_nil. cbn [userId].
    rewrite decide_False by done. by rewrite app_nil_r.
Qed.

End GeofenceFacts.

(** * The user service *)

Section UserFacts.
Context `{UserService.Bcrypt}.
Import UserService.

Lemma find_user_app users later name :
  find_user (users ++ later) name
  = match find_user users name with
    | Some user => Some user
    | None => find_user later name
    end.
Proof.
  unfold find_user. induction users as [|u users IH]; [done|].
  cbn. by destruct (strict_eq (username u) name).
Qed.

Lemma find_user_None users name i u :
  find_user users name = None →
  users !! i = Some u →
  strict_eq (username u) name = false.
Proof.
  intros Hfind Hu. apply (find_none _ _ Hfind).
  apply list_elem_of_In, list_elem_of_lookup. eauto.
Qed.

(** What the second half of a registration does to [users]. *)
Lemma register_finish_cases users name pass salt :
  register_finish users name pass salt = (users, RegisterError500)
  ∨ ∃ hashedPassword,
      salt ≫= bcrypt_hash pass = Some hashedPassword
      ∧ register_finish users name pass salt
        = (users ++ [{| id := Pos.of_succ_nat (length users);
                        username := name;
                        password := hashedPassword |}],
           Created201 (Pos.of_succ_nat (length users)) name).
Proof.
  unfold register_finish.
  destruct (salt ≫= bcrypt_hash pass) as [hashedPassword|]; [|by left].
  right. by exists hashedPassword.
Qed.

Lemma ids_by_position_snoc users hashedPassword name :
  ids_by_position users →
  ids_by_position
    (users ++ [{| id := Pos.of_succ_nat (length users);
                  username := name;
                  password := hashedPassword |}]).
Proof.
  intros Hids i u [[_ ?]|[-> <-]]%lookup_snoc_Some; [by apply Hids|done].
Qed.

Lemma step_ids_by_position w ev :
  ids_by_position (users w) → ids_by_position (users (step w ev)).
Proof.
  intros Hids. destruct ev as [name pass|n salt]; cbn.
  - by destruct (register_check (users w) name pass).
  - destruct (awaiting w !! n) as [[name pass]|]; [|done].
    destruct (register_finish_cases (users w) name pass salt)
      as [->|(hashedPassword & _ & ->)]; [done|].
    by apply ids_by_position_snoc.
Qed.

(** X10.  Under every interleaving of registrations, the user at position
    [i] of [users] has id [i + 1]: the id is computed when the user is
    pushed, after the last [await], so no two users ever share an id. *)
Theorem user_ids_count_up evs :
  ids_by_position (users (run (idle []) evs))
  ∧ NoDup (id <$> users (run (idle []) evs)).
Proof.
  assert (ids_by_position (users (run (idle []) evs))) as Hids.
  { unfold run.
    assert (ids_by_position (users (idle []))) as Hstart
      by (intros i u Hi; cbn in Hi; by rewrite lookup_nil in Hi).
    revert Hstart. generalize (idle []).
    induction evs as [|ev evs IH]; intros w Hw; [done|].
    cbn [foldl]. by apply IH, step_ids_by_position. }
  split; [done|].
  apply NoDup_alt. intros i j uid. rewrite !list_lookup_fmap.
  destruct (users _ !! i) as [ui|] eqn:Hi; [|done].
  destruct (users _ !! j) as [uj|] eqn:Hj; [|done].
  cbn. intros [= <-] [= Heq].
  rewrite (Hids _ _ Hi), (Hids _ _ Hj) in Heq. lia.
Qed.

Lemma register_names_distinct users name pass salt :
  names_distinct users → names_distinct (register users name pass salt).1.
Proof.
  intros Hdistinct. unfold register, register_check.
  destruct (negb (Js.truthy name) || negb (Js.truthy pass)); [done|].
  destruct (find_user users name) as [existingUser|] eqn:Hfind; [done|].
  destruct (register_finish_cases users name pass salt)
    as [->|(hashedPassword & _ & ->)]; [done|].
  cbn [fst]. intros i j u v Hij Hu Hv.
  apply lookup_snoc_Some in Hv as [[Hj Hv]|[-> <-]].
  - apply (Hdistinct i j); [done| |done].
    apply lookup_snoc_Some in Hu as [[_ ?]|[-> _]]; [done|lia].
  - apply lookup_snoc_Some in Hu as [[_ Hu]|[-> _]]; [|lia].
    cbn. by eapply find_user_None.
Qed.

(** X11.  When registrations do not overlap, no user ever gets the name of
    a user registered before: from the empty list, after any sequence of
    registrations run one after the other, the name of a later user is
    never [===] to the name of an earlier one. *)
Theorem usernames_distinct_in_sequence calls :
  names_distinct (register_all [] calls).
Proof.
  unfold register_all.
  assert (names_distinct []) as Hstart
    by (intros i j u v _ Hu; by rewrite lookup_nil in Hu).
  revert Hstart. generalize (@nil User).
  induction calls as [|[[name pass] salt] calls IH]; intros users Husers;
    [done|].
  cbn [foldl]. by apply IH, register_names_distinct.
Qed.

Lemma step_arrive w name pass :
  register_check (users w) name pass = None →
  step w (Arrive name pass)
  = {| users := users w;
       awaiting := <[next w := (name, pass)]> (awaiting w);
       next := S (next w);
       answers := answers w |}.
Proof. intros Hcheck. cbn. by rewrite Hcheck. Qed.

Lemma step_settle w n name pass salt hashedPassword :
  awaiting w !! n = Some (name, pass) →
  salt ≫= bcrypt_hash pass = Some hashedPassword →
  step w (Settle n salt)
  = {| users :=
         users w ++ [{| id := Pos.of_succ_nat (length (users w));
                        username := name;
                        password := hashedPassword |}];
       awaiting := delete n (awaiting w);
       next := next w;
       answers :=
         answers w
         ++ [(n, Created201 (Pos.of_succ_nat (length (users w))) name)] |}.
Proof.
  intros Hn Hhash. cbn. rewrite Hn. unfold register_finish. by rewrite Hhash.
Qed.

(** X12.  Two registrations of one name that overlap both succeed.  The
    name is looked up before the password is hashed and the user is pushed
    after: when the second request arrives before the first has been
    pushed, both pass the lookup and [users] ends with two users of that
    name, with consecutive ids, both answered 201.  Run one after the
    other, the second is answered 'Username already taken'. *)
Theorem overlapping_registrations_duplicate
    (registered : list User) name pass1 pass2 salt1 salt2 hash1 hash2 :
  register_check registered name pass1 = None →
  Js.truthy pass2 = true →
  strict_eq name name = true →
  bcrypt_hash pass1 salt1 = Some hash1 →
  bcrypt_hash pass2 salt2 = Some hash2 →
  let n := length registered in
  let first :=
    {| id := Pos.of_succ_nat n; username := name; password := hash1 |} in
  let second :=
    {| id := Pos.of_succ_nat (S n); username := name; password := hash2 |} in
  let w :=
    run (idle registered)
      [Arrive name pass1; Arrive name pass2;
       Settle 0 (Some salt1); Settle 1 (Some salt2)] in
  users w = registered ++ [first; second]
  ∧ answers w
    = [(0, Created201 (Pos.of_succ_nat n) name);
       (1, Created201 (Pos.of_succ_nat (S n)) name)]
  ∧ register (register registered name pass1 (Some salt1)).1
      name pass2 (Some salt2)
    = (registered ++ [first], UsernameTaken400).
Proof.
  intros Hcheck1 Hpass2 Hname Hhash1 Hhash2 n first second w.
  assert (find_user registered name = None ∧ Js.truthy name = true)
    as [Hfind Htruthy].
  { revert Hcheck1. unfold register_check.
    destruct (Js.truthy name); [|done].
    destruct (negb true || negb (Js.truthy pass1)); [done|].
    by destruct (find_user registered name). }
  assert (register_check registered name pass2 = None) as Hcheck2.
  { unfold register_check. by rewrite Htruthy, Hpass2, Hfind. }
  assert (w = {| users := registered ++ [first; second];
                 awaiting :=
                   delete 1 (delete 0 (<[1 := (name, pass2)]>
                                         (<[0 := (name, pass1)]> ∅)));
                 next := 2;
                 answers :=
                   [(0, Created201 (Pos.of_succ_nat n) name);
                    (1, Created201 (Pos.of_succ_nat (S n)) name)] |}) as ->.
  { subst w. unfold run. cbn [foldl].
    rewrite (step_arrive (idle registered)) by done.
    rewrite step_arrive by done.
    rewrite (step_settle _ 0 name pass1 (Some salt1) hash1);
      [|cbn; by rewrite lookup_insert_ne, lookup_insert_eq|apply Hhash1].
    rewrite (step_settle _ 1 name pass2 (Some salt2) hash2);
      [|cbn; by rewrite lookup_delete_ne, lookup_insert_eq|apply Hhash2].
    cbn. rewrite length_app, <- app_assoc. cbn.
    by rewrite Nat.add_1_r. }
  split_and!; [done..|].
  unfold register at 2. rewrite Hcheck1.
  unfold register_finish. cbn [mbind option_bind]. rewrite Hhash1.
  cbn [fst]. unfold register, register_check.
  rewrite Htruthy, Hpass2. cbn.
  rewrite find_user_app, Hfind. unfold find_user. cbn. by rewrite Hname.
Qed.

End UserFacts.

Section LoginFacts.
Context `{UserService.Bcrypt} `{Auth.Jwt}.
Import UserService.

Lemma register_created users name pass salt users' i name' :
  register users name pass salt = (users', Created201 i name') →
  find_user users name = None
  ∧ name' = name
  ∧ i = Pos.of_succ_nat (length users)
  ∧ ∃ hashedPassword,
      salt ≫= bcrypt_hash pass = Some hashedPassword
      ∧ users' = users ++ [{| id := i; username := name;
                              password := hashedPassword |}].
Proof.
  unfold register, register_check.
  destruct (negb (Js.truthy name) || negb (Js.truthy pass)); [done|].
  destruct (find_user users name) as [existingUser|]; [done|].
  destruct (register_finish_cases users name pass salt)
    as [->|(hashedPassword & Hhash & ->)]; [done|].
  intros [= <- <- <-]. split_and!; [done..|]. by exists hashedPassword.
Qed.

(** Registrations only ever append to [users]. *)
Lemma register_all_extends users calls :
  ∃ later, register_all users calls = users ++ later.
Proof.
  unfold register_all. revert users.
  induction calls as [|[[name pass] salt] calls IH]; intros users.
  - exists []. by rewrite app_nil_r.
  - cbn [foldl fst snd].
    destruct (IH (register users name pass salt).1) as [later ->].
    unfold register. destruct (register_check users name pass); [by eauto|].
    destruct (register_finish_cases users name pass salt)
      as [->|(hashedPassword & _ & ->)]; [by eauto|].
    cbn [fst]. rewrite <- app_assoc. by eauto.
Qed.

(** Under the event loop too, [users] only ever grows at its end. *)
Lemma run_extends evs w :
  ∃ later, users (run w evs) = users w ++ later.
Proof.
  unfold run. revert w. induction evs as [|ev evs IH]; intros w.
  - exists []. by rewrite app_nil_r.
  - cbn [foldl]. destruct (IH (step w ev)) as [later ->].
    destruct ev as [name pass|n salt]; cbn.
    + destruct (register_check (users w) name pass); by eauto.
    + destruct (awaiting w !! n) as [[name pass]|]; [|by eauto].
      destruct (register_finish_cases (users w) name pass salt)
        as [->|(hashedPassword & _ & ->)]; [by eauto|].
      cbn. rewrite <- app_assoc. by eauto.
Qed.

(** X13.  The first user of a name can log in, and keeps being able to.
    When the hash of a suspended registration settles while no user of its
    name has been pushed yet, the registration is answered 201 with the
    next id, and from then on, under every interleaving of the
    registrations that follow or are still in flight, a login with that
    name is answered with the token signed for the id and the name of the
    201 when bcrypt matches the password against the stored hash, and 400
    when it does not.  The name is one that [===] recognises (a string, a
    number or a boolean). *)
Theorem registered_user_can_log_in
    (w : Server) n name pass salt hashedPassword evs pass' matches :
  awaiting w !! n = Some (name, pass) →
  find_user (users w) name = None →
  strict_eq name name = true →
  salt ≫= bcrypt_hash pass = Some hashedPassword →
  bcrypt_compare pass' hashedPassword = Some matches →
  let i := Pos.of_succ_nat (length (users w)) in
  answers (step w (Settle n salt)) = answers w ++ [(n, Created201 i name)]
  ∧ login (users (run (step w (Settle n salt)) evs)) name pass'
    = if matches
      then match Auth.jwt_sign {| Auth.id := i; Auth.username := name |}
                   JWT_SECRET with
           | Some token => Token200 token
           | None => SignError
           end
      else InvalidCredentials400.
Proof.
  intros Hn Hfind Hname Hhash Hcompare i. subst i.
  split; [by rewrite (step_settle w n name pass salt hashedPassword)|].
  destruct (run_extends evs (step w (Settle n salt))) as [later ->].
  rewrite (step_settle w n name pass salt hashedPassword) by done.
  cbn [users]. unfold login. rewrite !find_user_app, Hfind.
  unfold find_user at 1. cbn [List.find username]. rewrite Hname.
  cbn [password id username]. rewrite Hcompare. by destruct matches.
Qed.

End LoginFacts.

(** ** Concrete runs of the two services *)

Lemma create_then_list_witness :
  ∃ db' newFence userFences,
    GeofenceService.post_geofences (H := toy_jwt) GeofenceService.start
      (Some "alice") (Js.Str "home") at_home (Js.Num 500)
    = (db', GeofenceService.Created201 newFence)
    ∧ newFence
      = {| GeofenceService.id := 1; GeofenceService.userId := 1;
           GeofenceService.name := Js.Str "home";
           GeofenceService.center := at_home;
           GeofenceService.radius := Js.Num 500 |}
    ∧ GeofenceService.get_geofences (H := toy_jwt) GeofenceService.start
        (Some "alice")
      = GeofenceService.Ok200 userFences
    ∧ GeofenceService.get_geofences (H := toy_jwt) db' (Some "alice")
      = GeofenceService.Ok200 (userFences ++ [newFence])
    ∧ ∀ token' user',
        Auth.authMiddleware (H := toy_jwt)
          (Some GeofenceService.JWT_SECRET) token' = Auth.Next user' →
        Auth.id user' ≠ 1%positive →
        GeofenceService.get_geofences (H := toy_jwt) db' token'
        = GeofenceService.get_geofences (H := toy_jwt)
            GeofenceService.start token'.
Proof.
  apply (create_then_list (H := toy_jwt) GeofenceService.start (Some "alice")
           {| Auth.id := 1; Auth.username := Js.Str "alice" |});
    vm_compute; reflexivity.
Defined.

Lemma overlapping_registrations_duplicate_witness :
  UserService.users
    (UserService.run (H := toy_bcrypt) (UserService.idle [])
       [UserService.Arrive (Js.Str "alice") (Js.Str "one");
        UserService.Arrive (Js.Str "alice") (Js.Str "two");
        UserService.Settle 0 (Some "s");
        UserService.Settle 1 (Some "t")])
  = [{| UserService.id := 1; UserService.username := Js.Str "alice";
        UserService.password := "s$one" |};
     {| UserService.id := 2; UserService.username := Js.Str "alice";
        UserService.password := "t$two" |}].
Proof.
  apply (overlapping_registrations_duplicate (H := toy_bcrypt)
           [] (Js.Str "alice") (Js.Str "one") (Js.Str "two") "s" "t"
           "s$one" "t$two"); vm_compute; reflexivity.
Defined.

(** Alice registers; bob and a second alice register while her hash is
    being computed and after; her login still succeeds. *)
Lemma registered_user_can_log_in_witness :
  UserService.login (H := toy_bcrypt) (H0 := toy_jwt)
    (UserService.users
       (UserService.run (H := toy_bcrypt)
          (UserService.step (H := toy_bcrypt)
             (UserService.run (H := toy_bcrypt) (UserService.idle [])
                [UserService.Arrive (Js.Str "alice") (Js.Str "one");
                 UserService.Arrive (Js.Str "alice") (Js.Str "two")])
             (UserService.Settle 0 (Some "s")))
          [UserService.Arrive (Js.Str "bob") (Js.Str "three");
           UserService.Settle 1 (Some "t");
           UserService.Settle 2 (Some "u")]))
    (Js.Str "alice") (Js.Str "one")
  = UserService.Token200 "alice".
Proof.
  apply (registered_user_can_log_in (H := toy_bcrypt) (H0 := toy_jwt)
           (UserService.run (H := toy_bcrypt) (UserService.idle [])
              [UserService.Arrive (Js.Str "alice") (Js.Str "one");
               UserService.Arrive (Js.Str "alice") (Js.Str "two")])
           0 (Js.Str "alice") (Js.Str "one") (Some "s") "s$one"
           [UserService.Arrive (Js.Str "bob") (Js.Str "three");
            UserService.Settle 1 (Some "t");
            UserService.Settle 2 (Some "u")]
           (Js.Str "one") true);
    vm_compute; reflexivity.
Defined.

(** * The services together *)

Section System.
Context `{Turf} `{Auth.Jwt}.

Lemma as_fence_id g fence :
  as_fence g = Some fence →
  id fence = GeofenceService.id g ∧ userId fence = GeofenceService.userId g.
Proof.
  unfold as_fence.
  destruct (GeofenceService.name g); try done.
  destruct (GeofenceService.center g) as [| | | | |[|[] [|[] ?]]|]; try done.
  destruct (GeofenceService.radius g); try done.
  by intros [= <-].
Qed.

(** A fence id answered by the location service is the id of one of the
    fences of the lookup. *)
Lemma answered_fence_id_in_lookup
    (states : gmap positive Status) uid location geofences states' body fid :
  post_location states uid location (AxiosOk geofences)
  = (states', Ok200 body) →
  fenceId body = Some fid →
  ∃ fence, fence ∈ geofences ∧ id fence = fid.
Proof.
  unfold post_location. destruct (invalid_location location); [done|].
  unfold resume.
  destruct (turf_point _ _) as [userPoint|]; [|done]. cbn.
  destruct (scan userPoint geofences) as [[isIn fid']|] eqn:Hscan; [|done].
  intros [= <- <-]. apply scan_inv in Hscan. unfold detect. cbn.
  destruct isIn.
  - destruct Hscan as (before & fence & after & -> & _ & _ & ->).
    case_bool_decide; [|done]. intros [= <-].
    exists fence. split; [set_solver|done].
  - destruct Hscan as [-> _]. by case_bool_decide.
Qed.

(** X14.  The location service forwards the caller's token to the geofence
    service and loops over what [GET /geofences] answers.  A fence id it
    reports is therefore the id of a stored fence owned by the user the
    geofence service verified that token as, which is the caller whenever
    the location service runs with the secret of the geofence service. *)
Theorem reported_fence_is_the_callers
    (db : GeofenceService.Db) (states : gmap positive Status)
    JWT_SECRET token caller location userFences geofences states' body fid :
  Auth.authMiddleware JWT_SECRET token = Auth.Next caller →
  GeofenceService.get_geofences db token = GeofenceService.Ok200 userFences →
  mapM as_fence userFences = Some geofences →
  post_location states (Auth.id caller) location (AxiosOk geofences)
  = (states', Ok200 body) →
  fenceId body = Some fid →
  ∃ owner stored,
    Auth.authMiddleware (Some GeofenceService.JWT_SECRET) token
    = Auth.Next owner
    ∧ stored ∈ GeofenceService.geofences db
    ∧ GeofenceService.id stored = fid
    ∧ GeofenceService.userId stored = Auth.id owner
    ∧ (JWT_SECRET = Some GeofenceService.JWT_SECRET → owner = caller).
Proof.
  intros Hcaller Hget Hread Hcall Hfid.
  destruct (answered_fence_id_in_lookup _ _ _ _ _ _ _ Hcall Hfid)
    as (fence & [k Hk]%list_elem_of_lookup & <-).
  apply mapM_Some_1 in Hread.
  destruct (Forall2_lookup_r _ _ _ _ _ Hread Hk) as (stored & Hstored & Hfence).
  apply as_fence_id in Hfence as [Hid _].
  unfold GeofenceService.get_geofences in Hget.
  destruct (Auth.authMiddleware (Some GeofenceService.JWT_SECRET) token)
    as [| |owner] eqn:Howner; [done..|].
  injection Hget as <-.
  assert (stored ∈ filter
            (λ g, GeofenceService.userId g = Auth.id owner)
            (GeofenceService.geofences db)) as Hin
    by (apply list_elem_of_lookup; eauto).
  apply list_elem_of_filter in Hin as [Howner' Hin].
  exists owner, stored. split_and!; [done..|].
  intros ->. congruence.
Qed.

End System.

Lemma retry_is_silent_witness :
  post_location (H := flat_turf) (<[1%positive := inside]> ∅) 1 at_home
    (AxiosOk [home])
  = (<[1%positive := inside]> ∅,
     Ok200 {| trigger := none; status := status entered_home;
              fenceId := None |}).
Proof.
  apply (retry_is_silent (H := flat_turf) ∅ 1%positive at_home (AxiosOk [home])).
  vm_compute; reflexivity.
Defined.

Lemma inside_hides_fence_switch_witness :
  fenceId {| trigger := none; status := inside; fenceId := None |} = None
  ∧ trigger {| trigger := none; status := inside; fenceId := None |} ≠ enter
  ∧ (status {| trigger := none; status := inside; fenceId := None |} = inside →
     trigger {| trigger := none; status := inside; fenceId := None |} = none)
  ∧ (status {| trigger := none; status := inside; fenceId := None |} = outside →
     trigger {| trigger := none; status := inside; fenceId := None |} = exit).
Proof.
  apply (inside_hides_fence_switch (H := flat_turf)
           (<[1%positive := inside]> ∅) 1%positive at_home (AxiosOk [office])
           (<[1%positive := inside]> ∅));
    vm_compute; reflexivity.
Defined.

Lemma fence_id_only_on_enter_witness :
  (is_Some (fenceId entered_home) ↔ trigger entered_home = enter)
  ∧ ∀ fid, fenceId entered_home = Some fid →
      ∃ userPoint fence,
        turf_point (Turf := flat_turf) (Js.index at_home 1) (Js.index at_home 0)
        = Some userPoint
        ∧ fence ∈ [ring; home; office]
        ∧ id fence = fid
        ∧ isWithin (H := flat_turf) userPoint fence = Some true.
Proof.
  apply (fence_id_only_on_enter (H := flat_turf)
           ∅ 1%positive at_home [ring; home; office]
           (<[1%positive := inside]> ∅)).
  vm_compute; reflexivity.
Defined.

Lemma reported_fence_is_the_callers_witness :
  ∃ owner stored,
    Auth.authMiddleware (H := toy_jwt)
      (Some GeofenceService.JWT_SECRET) (Some "alice") = Auth.Next owner
    ∧ stored ∈ [stored_home]
    ∧ GeofenceService.id stored = 1%positive
    ∧ GeofenceService.userId stored = Auth.id owner
    ∧ (Some "env" = Some GeofenceService.JWT_SECRET →
       owner = {| Auth.id := 1; Auth.username := Js.Str "alice" |}).
Proof.
  apply (reported_fence_is_the_callers (H := flat_turf) (H0 := toy_jwt)
           {| GeofenceService.geofences := [stored_home];
              GeofenceService.fenceIdCounter := 2 |}
           ∅ (Some "env") (Some "alice")
           {| Auth.id := 1; Auth.username := Js.Str "alice" |}
           at_home [stored_home] [home] (<[1%positive := inside]> ∅)
           entered_home);
    vm_compute; reflexivity.
Defined.

Section EdgeCases.
Context `{Turf} `{UserService.Bcrypt} `{Auth.Jwt}.

(** X15.  A user who owns no fence in the store is never inside: whatever
    the store holds for other users, a report that is answered with a
    result gets status [outside] and no fence id, records [outside], and
    fires [exit] exactly when the user was recorded inside before. *)
Theorem no_fences_means_outside
    (states : gmap positive Status) uid location (geofences : list Fence)
    states' body :
  (∀ fence, fence ∈ geofences → userId fence ≠ uid) →
  post_location states uid location (AxiosOk (get_geofences geofences uid))
  = (states', Ok200 body) →
  body
  = {| trigger := if bool_decide (states !! uid = Some inside)
                  then exit else none;
       status := outside;
       fenceId := None |}
  ∧ states' = <[uid := outside]> states.
Proof.
  intros Hnone.
  assert (get_geofences geofences uid = []) as ->.
  { destruct (get_geofences geofences uid) as [|fence rest] eqn:Hget; [done|].
    assert (fence ∈ get_geofences geofences uid) as Hin
      by (rewrite Hget; left).
    apply get_geofences_owner in Hin as [Howner Hin].
    by destruct (Hnone _ Hin). }
  unfold post_location. destruct (invalid_location location); [done|].
  unfold resume. destruct (turf_point _ _) as [userPoint|]; [|done].
  cbn. intros [= <- <-]. split; [|done].
  by destruct (states !! uid) as [[]|].
Qed.

(** X16.  Of two users with the same name, only the first can log in.
    [POST /login] takes the first user of that name: when a name has been
    registered twice by overlapping requests, every login with that name is
    decided by the hash of the first registration and is answered with a
    token for its id; the hash of the second is never compared. *)
Theorem duplicate_account_is_unreachable
    (registered : list UserService.User) name first second later pass :
  UserService.find_user registered name = None →
  strict_eq (UserService.username first) name = true →
  UserService.login (registered ++ first :: second :: later) name pass
  = match UserService.bcrypt_compare pass (UserService.password first) with
    | None => UserService.LoginError500
    | Some false => UserService.InvalidCredentials400
    | Some true =>
        match Auth.jwt_sign
                {| Auth.id := UserService.id first;
                   Auth.username := UserService.username first |}
                UserService.JWT_SECRET with
        | Some token => UserService.Token200 token
        | None => UserService.SignError
        end
    end.
Proof.
  intros Hfind Hfirst. unfold UserService.login.
  rewrite find_user_app, Hfind. unfold UserService.find_user.
  cbn [List.find]. by rewrite Hfirst.
Qed.

End EdgeCases.

Lemma no_fences_means_outside_witness :
  {| trigger := exit; status := outside; fenceId := None |}
  = {| trigger := if bool_decide
                       ((<[1%positive := inside]> ∅ : gmap positive Status)
                          !! 1%positive = Some inside)
                  then exit else none;
       status := outside;
       fenceId := None |}
  ∧ <[1%positive := outside]> (<[1%positive := inside]> ∅)
    = <[1%positive := outside]> (<[1%positive := inside]> ∅
                                 : gmap positive Status).
Proof.
  apply (no_fences_means_outside (H := flat_turf)
           (<[1%positive := inside]> ∅) 1%positive at_home
           [{| id := 7; userId := 2; name := "other";
               center := (51.5, -0.125)%float; radius := 500 |}]).
  - intros fence [->|[]%elem_of_nil]%elem_of_cons. vm_compute. discriminate.
  - vm_compute; reflexivity.
Defined.

Lemma duplicate_account_is_unreachable_witness :
  UserService.login (H := toy_bcrypt) (H0 := toy_jwt)
    [{| UserService.id := 1; UserService.username := Js.Str "alice";
        UserService.password := "s$one" |};
     {| UserService.id := 2; UserService.username := Js.Str "alice";
        UserService.password := "t$two" |}]
    (Js.Str "alice") (Js.Str "two")
  = UserService.InvalidCredentials400.
Proof.
  apply (duplicate_account_is_unreachable (H0 := toy_bcrypt) (H1 := toy_jwt)
           [] (Js.Str "alice")
           {| UserService.id := 1; UserService.username := Js.Str "alice";
              UserService.password := "s$one" |}
           {| UserService.id := 2; UserService.username := Js.Str "alice";
              UserService.password := "t$two" |}
           [] (Js.Str "two")); reflexivity.
Defined.

Lemma usernames_distinct_in_sequence_witness :
  strict_eq (Js.Str "alice") (Js.Str "bob") = false.
Proof.
  apply (usernames_distinct_in_sequence (H := toy_bcrypt)
           [(Js.Str "alice", Js.Str "one", Some "s");
            (Js.Str "alice", Js.Str "two", Some "t");
            (Js.Str "bob", Js.Str "three", Some "u")]
           0 1
           {| UserService.id := 1; UserService.username := Js.Str "alice";
              UserService.password := "s$one" |}
           {| UserService.id := 2; UserService.username := Js.Str "bob";
              UserService.password := "u$three" |});
    [lia|vm_compute; reflexivity..].
Defined.
